(** * prisma-adapter-node-sqlite: the driver adapter over [node:sqlite]

    A shallow embedding of the adapter module (queryable, transaction,
    adapter) and of the two libraries whose behaviour the adapter's
    guarantees rest on: the [DatabaseSync] client of [node:sqlite], taken
    as an interface, and the [Mutex] of [async-mutex], taken as the
    one-slot semaphore it is.

    JavaScript is single threaded: an [async] function runs without
    interruption from one [await] to the next.  Each such stretch is one
    function on the adapter's state here, and concurrent callers are the
    interleavings of these stretches (the [Event]s of the last part).
    The [debug] traces, which change nothing, are left out. *)

From Stdlib Require Import ZArith String List Bool Lia Sorted.
From stdpp Require Import base option list gmap pretty.

Open Scope string_scope.
Open Scope list_scope.
Open Scope Z_scope.

(** ** Values at the engine boundary *)

(** [SQLInputValue] and the values read back from a statement: [null], a
    JavaScript number (an integer [n] or, for a fraction, the numerator
    and the power of two under it), a [bigint], a string or a byte array. *)
Inductive JsValue :=
| JNull
| JNumber (n : Z)
| JFraction (num : Z) (log2den : positive)
| JBigInt (n : Z)
| JString (s : string)
| JBytes (b : list Byte.byte).

(** [changes: number | bigint] of a [StatementResultingChanges]. *)
Inductive JsCount :=
| CountNumber (n : Z)
| CountBigInt (n : Z).

Record StatementResultingChanges := {
  res_changes : JsCount;
  res_lastInsertRowid : JsCount
}.

(** [NodeSQLiteMeta] *)
Record NodeSQLiteMeta := {
  changes : Z;
  lastInsertRowid : JsCount
}.

(** One entry of [stmt.columns()]; [type] is [null] when the column has no
    declared type. *)
Record Column := {
  col_name : string;
  col_type : option string
}.

(** [NodeSQLiteResultSet] *)
Record NodeSQLiteResultSet := {
  declaredTypes : list (option string);
  columnNames : list string;
  values : list (list JsValue)
}.

(** The column types of the ORM contract. *)
Inductive ColumnType :=
| CtText | CtInt32 | CtInt64 | CtFloat | CtNumeric | CtBoolean
| CtDateTime | CtJson | CtBytes | CtNull | CtUnknown.

(** [SqlResultSet], with [Cell] the type of a converted value. *)
Record SqlResultSet (Cell : Type) := {
  rs_columnNames : list string;
  rs_columnTypes : list ColumnType;
  rs_rows : list (list Cell)
}.
Arguments rs_columnNames {Cell} _.
Arguments rs_columnTypes {Cell} _.
Arguments rs_rows {Cell} _.

(** [SqlQuery] *)
Record SqlQuery (Arg ArgType : Type) := {
  sql : string;
  args : list Arg;
  argTypes : list ArgType
}.
Arguments sql {Arg ArgType} _.
Arguments args {Arg ArgType} _.
Arguments argTypes {Arg ArgType} _.

Inductive TimestampFormat := Iso8601 | UnixepochMs.

(** [PrismaNodeSQLiteOptions] *)
Record PrismaNodeSQLiteOptions := {
  shadowDatabaseUrl : option string;
  timestampFormat : option TimestampFormat
}.

(** [TransactionOptions] *)
Record TransactionOptions := {
  usePhantomQuery : bool
}.

(** ** Errors *)

(** The error objects a [DriverAdapterError] carries. *)
Inductive ErrorObject :=
| InvalidIsolationLevel (level : string)
| UniqueConstraintViolation (fields : list string)
| ForeignKeyConstraintViolation
| NullConstraintViolation (fields : list string)
| TypeMismatch (message : string)
| RawDatabaseError (code : option string) (message : string).

(** What a [throw] can carry: an [Error] of the engine or of a conversion,
    or the adapter's own [DriverAdapterError]. *)
Inductive Thrown :=
| JsError (code : option string) (message : string)
| DriverAdapterError (cause : ErrorObject).

(** ** Code that may throw and that mutates a state [S] *)

Definition IO (S A : Type) : Type := S -> S * (Thrown + A).

Definition ret {S A} (a : A) : IO S A := fun s => (s, inr a).

Definition throw {S A} (e : Thrown) : IO S A := fun s => (s, inl e).

Definition bind {S A B} (c : IO S A) (k : A -> IO S B) : IO S B :=
  fun s => match c s with
           | (s', inl e) => (s', inl e)
           | (s', inr a) => k a s'
           end.

(** [try { c } catch (e) { h(e) }]: the state changes made before the
    throw stay. *)
Definition try_catch {S A} (c : IO S A) (h : Thrown -> IO S A) : IO S A :=
  fun s => match c s with
           | (s', inl e) => h e s'
           | (s', inr a) => (s', inr a)
           end.

(** A computation that touches no state. *)
Definition pure_result {S A} (r : Thrown + A) : IO S A := fun s => (s, r).

Notation "'let!' x ':=' c 'in' k" := (bind c (fun x => k))
  (at level 10, x name, c at level 100, k at level 200).

(** ** The [node:sqlite] client *)

(** [DatabaseSync] and [StatementSync], as far as the adapter uses them.
    [DB] is the state of the connection, [Stmt] a prepared statement. *)
Class DatabaseSync (DB Stmt : Type) := {
  db_prepare : string -> DB -> DB * (Thrown + Stmt);
  stmt_has_setReturnArrays : Stmt -> bool;
  stmt_setReturnArrays : bool -> Stmt -> Stmt;
  stmt_setReadBigInts : bool -> Stmt -> Stmt;
  stmt_columns : Stmt -> list Column;
  stmt_run : Stmt -> list JsValue -> DB -> DB * (Thrown + StatementResultingChanges);
  stmt_all : Stmt -> list JsValue -> DB -> DB * (Thrown + list (list JsValue));
  db_exec : string -> DB -> DB * (Thrown + unit);
  db_close : DB -> DB * (Thrown + unit)
}.

(** A call that carries SQL to the engine, or closes it. *)
Inductive Call (Stmt : Type) :=
| CallPrepare (text : string)
| CallRun (stmt : Stmt) (bound : list JsValue)
| CallAll (stmt : Stmt) (bound : list JsValue)
| CallExec (script : string)
| CallClose.
Arguments CallPrepare {Stmt} _.
Arguments CallRun {Stmt} _ _.
Arguments CallAll {Stmt} _ _.
Arguments CallExec {Stmt} _.
Arguments CallClose {Stmt}.

(** The client object: the connection and, for the record, every call the
    adapter made on it, oldest first. *)
Record Client (DB Stmt : Type) := {
  conn : DB;
  issued : list (Call Stmt)
}.
Arguments conn {DB Stmt} _.
Arguments issued {DB Stmt} _.

(** ** The modules of the package that the adapter imports *)

(** [./conversion.js]: [mapArg], [mapRow] and the table from a declared
    type to a column type, which [getColumnTypes] consults. *)
Class Conversion (Arg ArgType Cell : Type) := {
  mapArg : Arg -> option ArgType -> option PrismaNodeSQLiteOptions -> Thrown + JsValue;
  mapRow : list JsValue -> list ColumnType -> Thrown + list Cell;
  declaredColumnType : string -> option ColumnType
}.

(** [./errors.js] *)
Class Errors := {
  convertDriverError : Thrown -> ErrorObject
}.

(** ** The queryable *)

Section Queryable.
Context {DB Stmt Arg ArgType Cell : Type}.
Context `{!DatabaseSync DB Stmt, !Conversion Arg ArgType Cell, !Errors}.

(** The methods of the client, each leaving its trace in [issued]. *)
Definition call {A} (what : Call Stmt) (f : DB -> DB * (Thrown + A)) : IO (Client DB Stmt) A :=
  fun c => let '(d, r) := f (conn c) in
           ({| conn := d; issued := issued c ++ [what] |}, r).

Definition prepare (text : string) : IO (Client DB Stmt) Stmt :=
  call (CallPrepare text) (db_prepare text).

Definition run (stmt : Stmt) (bound : list JsValue) : IO (Client DB Stmt) StatementResultingChanges :=
  call (CallRun stmt bound) (stmt_run stmt bound).

Definition all (stmt : Stmt) (bound : list JsValue) : IO (Client DB Stmt) (list (list JsValue)) :=
  call (CallAll stmt bound) (stmt_all stmt bound).

Definition exec (script : string) : IO (Client DB Stmt) unit :=
  call (CallExec script) (db_exec script).

Definition close : IO (Client DB Stmt) unit :=
  call CallClose db_close.

(** [Number(x)] for an integer [x]: a number is returned as it is, a
    [bigint] becomes the nearest double, ties to the even mantissa. *)
Definition round_to_double (n : Z) : Z :=
  let a := Z.abs n in
  if a <? 2 ^ 53 then n
  else
    let k := Z.log2 a - 52 in
    let q := Z.shiftr a k in
    let r := Z.land a (Z.ones k) in
    let half := Z.shiftl 1 (k - 1) in
    let up := (half <? r) || ((r =? half) && Z.odd q) in
    Z.sgn n * Z.shiftl (if up then q + 1 else q) k.

Definition Number (x : JsCount) : Z :=
  match x with
  | CountNumber n => n
  | CountBigInt n => round_to_double n
  end.

(** [onError]: every caught error is converted and thrown again. *)
Definition onError {S A} (error : Thrown) : IO S A :=
  throw (DriverAdapterError (convertDriverError error)).

(** [query.args.map((arg, i) => mapArg(arg, query.argTypes[i], adapterOptions))],
    from index [i] on; the first conversion that throws ends the loop. *)
Fixpoint mapArgsFrom (i : nat) (rest : list Arg) (types : list ArgType)
    (adapterOptions : option PrismaNodeSQLiteOptions) : Thrown + list JsValue :=
  match rest with
  | [] => inr []
  | arg :: rest' =>
      match mapArg arg (types !! i) adapterOptions with
      | inl e => inl e
      | inr v =>
          match mapArgsFrom (S i) rest' types adapterOptions with
          | inl e => inl e
          | inr vs => inr (v :: vs)
          end
      end
  end.

Definition mapArgs (adapterOptions : option PrismaNodeSQLiteOptions)
    (query : SqlQuery Arg ArgType) : Thrown + list JsValue :=
  mapArgsFrom 0 (args query) (argTypes query) adapterOptions.

Definition executeIO (adapterOptions : option PrismaNodeSQLiteOptions)
    (query : SqlQuery Arg ArgType) : IO (Client DB Stmt) NodeSQLiteMeta :=
  try_catch
    (let! bound := pure_result (mapArgs adapterOptions query) in
     let! stmt := prepare (sql query) in
     let! result := run stmt bound in
     ret {| changes := Number (res_changes result);
            lastInsertRowid := res_lastInsertRowid result |})
    onError.

Definition executeRaw (adapterOptions : option PrismaNodeSQLiteOptions)
    (query : SqlQuery Arg ArgType) : IO (Client DB Stmt) Z :=
  let! meta := executeIO adapterOptions query in
  ret (changes meta).

Definition performIO (adapterOptions : option PrismaNodeSQLiteOptions)
    (query : SqlQuery Arg ArgType) : IO (Client DB Stmt) NodeSQLiteResultSet :=
  try_catch
    (let! bound := pure_result (mapArgs adapterOptions query) in
     let! stmt := prepare (sql query) in
     let stmt := if stmt_has_setReturnArrays stmt
                 then stmt_setReturnArrays true stmt else stmt in
     let stmt := stmt_setReadBigInts true stmt in
     let columns := stmt_columns stmt in
     if (length columns =? 0)%nat then
       let! _ := run stmt bound in
       ret {| declaredTypes := []; columnNames := []; values := [] |}
     else
       let! values := all stmt bound in
       ret {| declaredTypes := map col_type columns;
              columnNames := map col_name columns;
              values := values |})
    onError.

(** The statement as [performIO] has set it up before it asks for its columns. *)
Definition arranged (stmt : Stmt) : Stmt :=
  stmt_setReadBigInts true
    (if stmt_has_setReturnArrays stmt then stmt_setReturnArrays true stmt else stmt).

(** Modelled from the spec: the type of a column without a declared type
    follows the shape of a value (the inference of ./conversion.js, which
    is missing): an ordinary integer is an integer, a big integer a 64-bit
    integer, and so on by shape. *)
Definition inferColumnTypeFromValue (value : JsValue) : ColumnType :=
  match value with
  | JNull => CtUnknown
  | JNumber _ => CtInt32
  | JFraction _ _ => CtFloat
  | JBigInt _ => CtInt64
  | JString _ => CtText
  | JBytes _ => CtBytes
  end.

(** Modelled from the spec: the scan of ./conversion.js, which is
    missing, that infers the type of column [index] from the first value in
    it that is not null, going through the rows in order; "unknown" when
    there is none. *)
Fixpoint inferColumnType (rows : list (list JsValue)) (index : nat) : ColumnType :=
  match rows with
  | [] => CtUnknown
  | row :: rest =>
      match row !! index with
      | None | Some JNull => inferColumnType rest index
      | Some value => inferColumnTypeFromValue value
      end
  end.

(** Modelled from the spec: [getColumnTypes] of ./conversion.js, which is
    missing.  A declared type that the table knows decides; a column with
    no declared type, or with one the table does not know, is inferred. *)
Definition getColumnTypes (declared : list (option string))
    (rows : list (list JsValue)) : list ColumnType :=
  imap (fun index hint =>
          match hint ≫= declaredColumnType with
          | Some columnType => columnType
          | None => inferColumnType rows index
          end) declared.

(** [rows.map((row) => mapRow(row, columnTypes))] *)
Fixpoint mapRows (rows : list (list JsValue)) (columnTypes : list ColumnType)
    : Thrown + list (list Cell) :=
  match rows with
  | [] => inr []
  | row :: rest =>
      match mapRow row columnTypes with
      | inl e => inl e
      | inr cells =>
          match mapRows rest columnTypes with
          | inl e => inl e
          | inr more => inr (cells :: more)
          end
      end
  end.

Definition queryRaw (adapterOptions : option PrismaNodeSQLiteOptions)
    (query : SqlQuery Arg ArgType) : IO (Client DB Stmt) (SqlResultSet Cell) :=
  let! io := performIO adapterOptions query in
  let rows := values io in
  let columnTypes := getColumnTypes (declaredTypes io) rows in
  let! mapped := pure_result (mapRows rows columnTypes) in
  ret {| rs_columnNames := columnNames io;
         rs_columnTypes := columnTypes;
         rs_rows := mapped |}.

End Queryable.

(** ** The value converter *)

(** The adapter imports [mapArg], [mapRow] and [getColumnTypes] from
    ./conversion.js.  What follows gives the converter as the
    specification describes it, on the signatures with which the adapter
    calls it: [mapArg(arg, argType, adapterOptions)] and
    [mapRow(row, columnTypes)]. *)
Module Converter.

(** [JSON] and [Date] of the platform: [parse] answers [None] where
    [JSON.parse] throws, [parseDate] where the text is no date; instants
    are milliseconds since the epoch. *)
Class Platform (Json : Type) := {
  stringify : Json -> string;
  parse : string -> option Json;
  toISOString : Z -> string;
  parseDate : string -> option Z
}.

(** Modelled from the spec: the values on the side of the ORM, one shape
    for each column type (text, integer, 64-bit integer, float, decimal as
    text, boolean, date/time, JSON, binary, null); the types of
    ./conversion.js are missing.  A float is [num / 2 ^ log2den]; a
    date/time is an instant. *)
Inductive Value (Json : Type) :=
| VNull
| VText (s : string)
| VInt (n : Z)
| VBigInt (n : Z)
| VFloat (num : Z) (log2den : N)
| VDecimal (text : string)
| VBoolean (b : bool)
| VDateTime (epochMs : Z)
| VJson (document : Json)
| VBytes (b : list Byte.byte).
Arguments VNull {Json}.
Arguments VText {Json} _.
Arguments VInt {Json} _.
Arguments VBigInt {Json} _.
Arguments VFloat {Json} _ _.
Arguments VDecimal {Json} _.
Arguments VBoolean {Json} _.
Arguments VDateTime {Json} _.
Arguments VJson {Json} _.
Arguments VBytes {Json} _.

Definition typeMismatch (what : string) : Thrown :=
  DriverAdapterError (TypeMismatch what).

(** The timestamp format of the adapter; calendar text unless configured. *)
Definition formatOf (adapterOptions : option PrismaNodeSQLiteOptions) : TimestampFormat :=
  match adapterOptions with
  | Some o =>
      match timestampFormat o with
      | Some format => format
      | None => Iso8601
      end
  | None => Iso8601
  end.

Definition nonFinite (text : string) : bool :=
  String.eqb text "NaN" || String.eqb text "Infinity" || String.eqb text "-Infinity".

(** The decimal text of [num / 2 ^ k], digit for digit. *)
Definition padded (width : nat) (digits : string) : string :=
  String.concat "" (repeat "0" (width - String.length digits)) ++ digits.

Definition decimalText (num : Z) (k : N) : string :=
  match k with
  | N0 => pretty num
  | Npos _ =>
      let m := Z.abs num * 5 ^ Z.of_N k in
      let unit := 10 ^ Z.of_N k in
      (if num <? 0 then "-" else "")
        ++ pretty (m / unit) ++ "." ++ padded (N.to_nat k) (pretty (m mod unit))
  end.

Section Converter.
Context {Json : Type} `{!Platform Json}.

(** Modelled from the spec: [mapArg] of ./conversion.js, which is missing.
    Text stays text; an integer binds as a number and a big integer as a
    [bigint]; a decimal binds as its text; JSON as its serialized text;
    binary as its bytes; a boolean as 0 or 1; a timestamp as ISO-8601 text
    or as the integer of its epoch milliseconds, by the configured format.
    A non-finite decimal, and a value that does not go with its argument
    type or comes without one, is a type mismatch. *)
Definition mapArg (arg : Value Json) (argType : option ColumnType)
    (adapterOptions : option PrismaNodeSQLiteOptions) : Thrown + JsValue :=
  match argType with
  | None => inl (typeMismatch "no argument type")
  | Some t =>
      match arg, t with
      | VNull, _ => inr JNull
      | VText s, CtText => inr (JString s)
      | VInt n, CtInt32 => inr (JNumber n)
      | VBigInt n, CtInt64 => inr (JBigInt n)
      | VFloat num N0, CtFloat => inr (JNumber num)
      | VFloat num (Npos k), CtFloat => inr (JFraction num k)
      | VDecimal text, CtNumeric =>
          if nonFinite text then inl (typeMismatch "non-finite decimal")
          else inr (JString text)
      | VBoolean b, CtBoolean => inr (JNumber (if b then 1 else 0))
      | VDateTime epochMs, CtDateTime =>
          match formatOf adapterOptions with
          | Iso8601 => inr (JString (toISOString epochMs))
          | UnixepochMs => inr (JNumber epochMs)
          end
      | VJson document, CtJson => inr (JString (stringify document))
      | VBytes b, CtBytes => inr (JBytes b)
      | _, _ => inl (typeMismatch "value and argument type")
      end
  end.

(** Modelled from the spec: the conversion of one value read from the
    engine, by the type of its column ([mapRow] of ./conversion.js, which
    is missing).  In a boolean column 0 and 1 are false and true; in a
    date/time column a text is parsed and an integer is the epoch
    milliseconds ([mapRow] is not given the options and tells the two
    formats apart by what is stored); in a decimal column the value comes
    back as decimal text; in a JSON column the text or blob is parsed, and
    a failure to parse is a type mismatch; in a 64-bit integer column, and
    for a big integer in any other column, the integer keeps its full
    precision; all else passes by its shape. *)
Definition mapValue (value : JsValue) (columnType : option ColumnType)
    : Thrown + Value Json :=
  match value, columnType with
  | JNull, _ => inr VNull
  | JNumber n, Some CtBoolean | JBigInt n, Some CtBoolean =>
      if n =? 0 then inr (VBoolean false)
      else if n =? 1 then inr (VBoolean true)
      else inl (typeMismatch "boolean")
  | JNumber n, Some CtDateTime | JBigInt n, Some CtDateTime => inr (VDateTime n)
  | JString text, Some CtDateTime =>
      match parseDate text with
      | Some epochMs => inr (VDateTime epochMs)
      | None => inl (typeMismatch "date/time")
      end
  | JString text, Some CtNumeric => inr (VDecimal text)
  | JNumber n, Some CtNumeric | JBigInt n, Some CtNumeric => inr (VDecimal (decimalText n 0))
  | JFraction num k, Some CtNumeric => inr (VDecimal (decimalText num (Npos k)))
  | JString text, Some CtJson =>
      match parse text with
      | Some document => inr (VJson document)
      | None => inl (typeMismatch "JSON")
      end
  | JBytes b, Some CtJson =>
      match parse (string_of_list_byte b) with
      | Some document => inr (VJson document)
      | None => inl (typeMismatch "JSON")
      end
  | JBigInt n, _ | JNumber n, Some CtInt64 => inr (VBigInt n)
  | JNumber n, Some CtFloat => inr (VFloat n 0)
  | JNumber n, _ => inr (VInt n)
  | JFraction num k, _ => inr (VFloat num (Npos k))
  | JString text, _ => inr (VText text)
  | JBytes b, _ => inr (VBytes b)
  end.

Fixpoint mapRowFrom (i : nat) (row : list JsValue) (columnTypes : list ColumnType)
    : Thrown + list (Value Json) :=
  match row with
  | [] => inr []
  | value :: rest =>
      match mapValue value (columnTypes !! i) with
      | inl e => inl e
      | inr v =>
          match mapRowFrom (S i) rest columnTypes with
          | inl e => inl e
          | inr vs => inr (v :: vs)
          end
      end
  end.

(** Modelled from the spec: [mapRow] of ./conversion.js, which is missing:
    every value of the row by the type of its column. *)
Definition mapRow (row : list JsValue) (columnTypes : list ColumnType)
    : Thrown + list (Value Json) :=
  mapRowFrom 0 row columnTypes.

(** The declared types of the README's table of native types. *)
Definition declaredColumnType (hint : string) : option ColumnType :=
  if String.eqb hint "TEXT" then Some CtText
  else if String.eqb hint "BOOLEAN" then Some CtBoolean
  else if String.eqb hint "INTEGER" then Some CtInt32
  else if String.eqb hint "REAL" then Some CtFloat
  else if String.eqb hint "DECIMAL" then Some CtNumeric
  else if String.eqb hint "NUMERIC" then Some CtDateTime
  else if String.eqb hint "JSONB" then Some CtJson
  else if String.eqb hint "BLOB" then Some CtBytes
  else None.

(** The platform reads back what it wrote for this value. *)
Definition readsBack (v : Value Json) : Prop :=
  match v with
  | VDateTime epochMs => parseDate (toISOString epochMs) = Some epochMs
  | VJson document => parse (stringify document) = Some document
  | _ => True
  end.

(** The integer that a value is, whatever its shape. *)
Definition integerOf (v : Value Json) : option Z :=
  match v with
  | VInt n | VBigInt n | VFloat n N0 => Some n
  | _ => None
  end.

(** Equal, integers compared by their exact value. *)
Definition sameValue (v v' : Value Json) : Prop :=
  v = v' \/ exists n : Z, integerOf v = Some n /\ integerOf v' = Some n.

End Converter.

End Converter.

(** The converter in the place of the imported module. *)
#[global] Instance converter {Json : Type} `{!Converter.Platform Json}
    : Conversion (Converter.Value Json) ColumnType (Converter.Value Json) := {|
  mapArg := Converter.mapArg;
  mapRow := Converter.mapRow;
  declaredColumnType := Converter.declaredColumnType
|}.

(** ** The lock: [Mutex] of async-mutex *)

(** A [Mutex] is a [Semaphore] of value 1.  Every [acquire] makes a task
    (weight 1, priority 0), named here by its number.  [sem_resolved]
    holds the tasks whose promise has been resolved with a releaser, and
    [sem_called] the releasers whose [called] flag is set. *)
Record Mutex := {
  sem_value : Z;
  sem_queue : list nat;
  sem_resolved : gset nat;
  sem_called : gset nat;
  sem_tasks : nat
}.

Definition newMutex : Mutex :=
  {| sem_value := 1; sem_queue := []; sem_resolved := ∅; sem_called := ∅;
     sem_tasks := 0 |}.

Definition isLocked (m : Mutex) : bool := sem_value m <=? 0.

(** [_dispatchItem]: the task takes its weight and its promise is resolved
    with a new releaser. *)
Definition dispatchItem (task : nat) (m : Mutex) : Mutex :=
  {| sem_value := sem_value m - 1;
     sem_queue := sem_queue m;
     sem_resolved := {[task]} ∪ sem_resolved m;
     sem_called := sem_called m;
     sem_tasks := sem_tasks m |}.

Definition enqueue (task : nat) (m : Mutex) : Mutex :=
  {| sem_value := sem_value m;
     sem_queue := sem_queue m ++ [task];
     sem_resolved := sem_resolved m;
     sem_called := sem_called m;
     sem_tasks := sem_tasks m |}.

(** [acquire]: with nobody queued and the value at hand the task is
    dispatched at once, and otherwise it goes to the end of the queue. *)
Definition acquire (m : Mutex) : Mutex * nat :=
  let task := sem_tasks m in
  let m' := {| sem_value := sem_value m;
               sem_queue := sem_queue m;
               sem_resolved := sem_resolved m;
               sem_called := sem_called m;
               sem_tasks := S task |} in
  match sem_queue m' with
  | [] => if 1 <=? sem_value m' then (dispatchItem task m', task)
          else (enqueue task m', task)
  | _ :: _ => (enqueue task m', task)
  end.

(** [_dispatchQueue]: while the head of the queue fits, shift and dispatch it. *)
Fixpoint dispatchQueue (pending : list nat) (m : Mutex) : Mutex :=
  match pending with
  | [] => m
  | task :: rest =>
      if 1 <=? sem_value m
      then dispatchQueue rest
             (dispatchItem task
                {| sem_value := sem_value m;
                   sem_queue := rest;
                   sem_resolved := sem_resolved m;
                   sem_called := sem_called m;
                   sem_tasks := sem_tasks m |})
      else m
  end.

Definition release (m : Mutex) : Mutex :=
  dispatchQueue (sem_queue m)
    {| sem_value := sem_value m + 1;
       sem_queue := sem_queue m;
       sem_resolved := sem_resolved m;
       sem_called := sem_called m;
       sem_tasks := sem_tasks m |}.

(** The releaser handed to [task]: [if (called) return; called = true;
    this.release(weight)]. *)
Definition releaser (task : nat) (m : Mutex) : Mutex :=
  if bool_decide (task ∈ sem_called m) then m
  else release
         {| sem_value := sem_value m;
            sem_queue := sem_queue m;
            sem_resolved := sem_resolved m;
            sem_called := {[task]} ∪ sem_called m;
            sem_tasks := sem_tasks m |}.

(** A task holds the lock from the resolution of its promise until its
    releaser is called. *)
Definition holds (m : Mutex) (task : nat) : Prop :=
  task ∈ sem_resolved m ∧ task ∉ sem_called m.

(** What is true of a mutex however it has been used: the value is 0 or
    1; at value 1 nobody holds the lock and at most one task ever does; a
    called releaser belongs to a resolved task; a queued task is not
    resolved and is queued once; and task numbers are handed out in order. *)
Record MutexInv (m : Mutex) : Prop := {
  inv_value : sem_value m = 0 \/ sem_value m = 1;
  inv_free : sem_value m = 1 -> forall t, ~ holds m t;
  inv_single : forall t1 t2, holds m t1 -> holds m t2 -> t1 = t2;
  inv_called : forall t, t ∈ sem_called m -> t ∈ sem_resolved m;
  inv_queued : forall t, t ∈ sem_queue m -> t ∉ sem_resolved m;
  inv_nodup : NoDup (sem_queue m);
  inv_numbered : forall t, t ∈ sem_resolved m \/ t ∈ sem_queue m -> (t < sem_tasks m)%nat
}.

(** ** Transaction and adapter *)

(** [NodeSQLiteTransaction].  Its client is the adapter's own client
    object, so it lives in the adapter's state; [unlockParent] is the
    releaser of the task that acquired the lock. *)
Record NodeSQLiteTransaction := {
  options : TransactionOptions;
  tx_adapterOptions : option PrismaNodeSQLiteOptions;
  unlockParent : nat
}.

(** [PrismaNodeSQLiteAdapter]: the client, the [#mutex] and the options. *)
Record Adapter (DB Stmt : Type) := {
  client : Client DB Stmt;
  mutex : Mutex;
  adapterOptions : option PrismaNodeSQLiteOptions
}.
Arguments client {DB Stmt} _.
Arguments mutex {DB Stmt} _.
Arguments adapterOptions {DB Stmt} _.

(** A JavaScript string is truthy unless it is empty. *)
Definition truthy (s : string) : bool := negb (String.eqb s "").

(** What [startTransaction] answers when nothing else runs in between. *)
Inductive Started :=
| Waiting (task : nat)
| Opened (tx : NodeSQLiteTransaction).

Section Adapter.
Context {DB Stmt Arg ArgType Cell : Type}.
Context `{!DatabaseSync DB Stmt, !Conversion Arg ArgType Cell, !Errors}.

Definition onClient {A} (c : IO (Client DB Stmt) A) : IO (Adapter DB Stmt) A :=
  fun a => let '(cl, r) := c (client a) in
           ({| client := cl; mutex := mutex a; adapterOptions := adapterOptions a |}, r).

Definition onMutex (f : Mutex -> Mutex) (a : Adapter DB Stmt) : Adapter DB Stmt :=
  {| client := client a; mutex := f (mutex a); adapterOptions := adapterOptions a |}.

Definition commit (tx : NodeSQLiteTransaction) : IO (Adapter DB Stmt) unit :=
  fun a => (onMutex (releaser (unlockParent tx)) a, inr tt).

Definition rollback (tx : NodeSQLiteTransaction) : IO (Adapter DB Stmt) unit :=
  fun a => (onMutex (releaser (unlockParent tx)) a, inr tt).

Definition executeScript (script : string) : IO (Adapter DB Stmt) unit :=
  onClient (try_catch (exec script) onError).

Definition dispose : IO (Adapter DB Stmt) unit :=
  onClient close.

(** [startTransaction] up to its [await]: the check of the isolation
    level, then the call of [this.#mutex.acquire()], which answers with
    the task whose promise the function awaits. *)
Definition startTransaction_enter (isolationLevel : option string)
    : IO (Adapter DB Stmt) nat :=
  fun a =>
    let go := let '(m, task) := acquire (mutex a) in
              (onMutex (fun _ => m) a, inr task) in
    match isolationLevel with
    | Some level =>
        if truthy level && negb (String.eqb level "SERIALIZABLE")
        then (a, inl (DriverAdapterError (InvalidIsolationLevel level)))
        else go
    | None => go
    end.

(** [this.client.prepare('BEGIN').run()] *)
Definition runBegin : IO (Adapter DB Stmt) StatementResultingChanges :=
  onClient (let! stmt := prepare "BEGIN" in run stmt []).

(** [startTransaction] from the resolution of the promise of [task] on:
    [BEGIN], then the transaction object that keeps the releaser. *)
Definition startTransaction_resume (task : nat)
    : IO (Adapter DB Stmt) NodeSQLiteTransaction :=
  try_catch
    (let! _ := runBegin in
     fun a => (a, inr {| options := {| usePhantomQuery := false |};
                         tx_adapterOptions := adapterOptions a;
                         unlockParent := task |}))
    onError.

(** The whole call when no other code runs at the [await]: it goes on as
    soon as the lock is its own, and is left waiting otherwise. *)
Definition startTransaction (isolationLevel : option string)
    : IO (Adapter DB Stmt) Started :=
  let! task := startTransaction_enter isolationLevel in
  fun a =>
    if bool_decide (task ∈ sem_resolved (mutex a))
    then (let! tx := startTransaction_resume task in ret (Opened tx)) a
    else (a, inr (Waiting task)).

Definition newAdapter (d : DB) (adapterOptions : option PrismaNodeSQLiteOptions)
    : Adapter DB Stmt :=
  {| client := {| conn := d; issued := [] |};
     mutex := newMutex;
     adapterOptions := adapterOptions |}.

End Adapter.

(** ** Callers in any order *)

(** The life of one [startTransaction] call, named by its task. *)
Inductive Phase :=
| Acquiring
| Open
| Failed
| Committed
| RolledBack.

(** The adapter together with the phase of every call made so far. *)
Record System (DB Stmt : Type) := {
  adapter : Adapter DB Stmt;
  phase : gmap nat Phase
}.
Arguments adapter {DB Stmt} _.
Arguments phase {DB Stmt} _.

(** What can happen next: a caller enters [startTransaction]; the call of
    [task] goes on after its [await]; [commit] or [rollback] is called on
    the transaction of [task]; a statement or a script is run through the
    adapter or through a transaction, which share the client. *)
Inductive Event (Arg ArgType : Type) :=
| Start (isolationLevel : option string)
| Resume (task : nat)
| Commit (task : nat)
| Rollback (task : nat)
| QueryRaw (query : SqlQuery Arg ArgType)
| ExecuteRaw (query : SqlQuery Arg ArgType)
| ExecuteScript (script : string).
Arguments Start {Arg ArgType} _.
Arguments Resume {Arg ArgType} _.
Arguments Commit {Arg ArgType} _.
Arguments Rollback {Arg ArgType} _.
Arguments QueryRaw {Arg ArgType} _.
Arguments ExecuteRaw {Arg ArgType} _.
Arguments ExecuteScript {Arg ArgType} _.

Section System.
Context {DB Stmt Arg ArgType Cell : Type}.
Context `{!DatabaseSync DB Stmt, !Conversion Arg ArgType Cell, !Errors}.

(** The transaction object that the call of [task] returned. *)
Definition transactionOf (a : Adapter DB Stmt) (task : nat) : NodeSQLiteTransaction :=
  {| options := {| usePhantomQuery := false |};
     tx_adapterOptions := adapterOptions a;
     unlockParent := task |}.

(** One event; [None] when it cannot happen in this state: a call goes on
    only once its promise is resolved, and [commit] and [rollback] need the
    transaction object, which only a call that got through [BEGIN] returns. *)
Definition step (ev : Event Arg ArgType) (s : System DB Stmt) : option (System DB Stmt) :=
  match ev with
  | Start isolationLevel =>
      match startTransaction_enter isolationLevel (adapter s) with
      | (a, inr task) => Some {| adapter := a; phase := <[task := Acquiring]> (phase s) |}
      | (a, inl _) => Some {| adapter := a; phase := phase s |}
      end
  | Resume task =>
      match phase s !! task with
      | Some Acquiring =>
          if bool_decide (task ∈ sem_resolved (mutex (adapter s)))
          then match startTransaction_resume task (adapter s) with
               | (a, inr _) => Some {| adapter := a; phase := <[task := Open]> (phase s) |}
               | (a, inl _) => Some {| adapter := a; phase := <[task := Failed]> (phase s) |}
               end
          else None
      | _ => None
      end
  | Commit task =>
      let a := fst (commit (transactionOf (adapter s) task) (adapter s)) in
      match phase s !! task with
      | Some Open => Some {| adapter := a; phase := <[task := Committed]> (phase s) |}
      | Some Committed | Some RolledBack => Some {| adapter := a; phase := phase s |}
      | _ => None
      end
  | Rollback task =>
      let a := fst (rollback (transactionOf (adapter s) task) (adapter s)) in
      match phase s !! task with
      | Some Open => Some {| adapter := a; phase := <[task := RolledBack]> (phase s) |}
      | Some Committed | Some RolledBack => Some {| adapter := a; phase := phase s |}
      | _ => None
      end
  | QueryRaw query =>
      Some {| adapter := fst (onClient (queryRaw (adapterOptions (adapter s)) query) (adapter s));
              phase := phase s |}
  | ExecuteRaw query =>
      Some {| adapter := fst (onClient (executeRaw (adapterOptions (adapter s)) query) (adapter s));
              phase := phase s |}
  | ExecuteScript script =>
      Some {| adapter := fst (executeScript script (adapter s)); phase := phase s |}
  end.

Fixpoint steps (evs : list (Event Arg ArgType)) (s : System DB Stmt) : option (System DB Stmt) :=
  match evs with
  | [] => Some s
  | ev :: rest =>
      match step ev s with
      | Some s' => steps rest s'
      | None => None
      end
  end.

Definition newSystem (d : DB) (adapterOptions : option PrismaNodeSQLiteOptions)
    : System DB Stmt :=
  {| adapter := newAdapter d adapterOptions; phase := ∅ |}.

(** How the phases sit on the mutex: a call that is acquiring has not
    called its releaser; an open transaction holds the lock, and so does a
    call whose BEGIN failed; a committed or rolled back transaction has
    called its releaser. *)
Record SystemInv (s : System DB Stmt) : Prop := {
  inv_mutex : MutexInv (mutex (adapter s));
  inv_known : forall t, is_Some (phase s !! t) -> (t < sem_tasks (mutex (adapter s)))%nat;
  inv_acquiring : forall t, phase s !! t = Some Acquiring -> t ∉ sem_called (mutex (adapter s));
  inv_open : forall t, phase s !! t = Some Open -> holds (mutex (adapter s)) t;
  inv_failed : forall t, phase s !! t = Some Failed -> holds (mutex (adapter s)) t;
  inv_ended : forall t, phase s !! t = Some Committed \/ phase s !! t = Some RolledBack ->
                        t ∈ sem_called (mutex (adapter s))
}.

End System.

(** ** Callers that wait *)

Section Waiting.
Context {DB Stmt : Type}.

(** How the queue sits on the lock and on the phases: a call is queued
    only while the mutex is locked, and a locked mutex has a holder; the
    queued calls are acquiring, in the order in which they called; every
    call whose promise is resolved has a phase. *)
Record WaitingInv (s : System DB Stmt) : Prop := {
  inv_waiting_locked : sem_queue (mutex (adapter s)) <> [] -> sem_value (mutex (adapter s)) = 0;
  inv_locked_held : sem_value (mutex (adapter s)) = 0 ->
                    exists t, holds (mutex (adapter s)) t;
  inv_queue_acquiring : forall t, t ∈ sem_queue (mutex (adapter s)) ->
                                  phase s !! t = Some Acquiring;
  inv_resolved_known : forall t, t ∈ sem_resolved (mutex (adapter s)) ->
                                 is_Some (phase s !! t);
  inv_queue_sorted : StronglySorted lt (sem_queue (mutex (adapter s)))
}.

End Waiting.

(** ** The factory *)

(** [new DatabaseSync(path, options)], which opens the database at [path]
    or throws; [Config] is [DatabaseSyncOptions]. *)
Class DatabaseSyncConstructor (DB Config : Type) := {
  db_open : string -> Config -> Thrown + DB
}.

(** [NodeSQLiteInputParams]: the options of [DatabaseSync] and the [url]. *)
Record NodeSQLiteInputParams (Config : Type) := {
  input_url : string;
  input_config : Config
}.
Arguments input_url {Config} _.
Arguments input_config {Config} _.

(** [PrismaNodeSQLiteAdapterFactory]: its [#config] and [#options]. *)
Record PrismaNodeSQLiteAdapterFactory (Config : Type) := {
  factory_config : NodeSQLiteInputParams Config;
  factory_options : option PrismaNodeSQLiteOptions
}.
Arguments factory_config {Config} _.
Arguments factory_options {Config} _.

(** What is left of [s] after the prefix [p], when [s] starts with it. *)
Fixpoint afterPrefix (p s : string) : option string :=
  match p with
  | EmptyString => Some s
  | String a p' =>
      match s with
      | EmptyString => None
      | String b s' => if Ascii.eqb a b then afterPrefix p' s' else None
      end
  end.

(** [url.replace(/^file:/, '')] *)
Definition replaceFilePrefix (url : string) : string :=
  match afterPrefix "file:" url with
  | Some path => path
  | None => url
  end.

Section Factory.
Context {DB Stmt Config : Type} `{!DatabaseSyncConstructor DB Config}.

Definition createNodeSQLiteClient (input : NodeSQLiteInputParams Config) : Thrown + DB :=
  let dbPath := replaceFilePrefix (input_url input) in
  db_open dbPath (input_config input).

Definition connect (factory : PrismaNodeSQLiteAdapterFactory Config)
    : Thrown + Adapter DB Stmt :=
  match createNodeSQLiteClient (factory_config factory) with
  | inl e => inl e
  | inr d => inr (newAdapter d (factory_options factory))
  end.

(** [this.#options?.shadowDatabaseUrl ?? ':memory:'] *)
Definition shadowUrl (adapterOptions : option PrismaNodeSQLiteOptions) : string :=
  match adapterOptions with
  | Some o =>
      match shadowDatabaseUrl o with
      | Some url => url
      | None => ":memory:"
      end
  | None => ":memory:"
  end.

Definition connectToShadowDb (factory : PrismaNodeSQLiteAdapterFactory Config)
    : Thrown + Adapter DB Stmt :=
  let url := shadowUrl (factory_options factory) in
  match createNodeSQLiteClient
          {| input_url := url; input_config := input_config (factory_config factory) |} with
  | inl e => inl e
  | inr d => inr (newAdapter d (factory_options factory))
  end.

End Factory.

(** ** Isolation levels *)

(** [IsolationLevel] of the driver adapter contract, and the string each
    level is at run time. *)
Inductive IsolationLevel :=
| READ_UNCOMMITTED
| READ_COMMITTED
| REPEATABLE_READ
| SNAPSHOT
| SERIALIZABLE.

Definition levelName (l : IsolationLevel) : string :=
  match l with
  | READ_UNCOMMITTED => "READ UNCOMMITTED"
  | READ_COMMITTED => "READ COMMITTED"
  | REPEATABLE_READ => "REPEATABLE READ"
  | SNAPSHOT => "SNAPSHOT"
  | SERIALIZABLE => "SERIALIZABLE"
  end.

(** ** A small engine to run the adapter on *)

(** One table [t], of which only the number of rows is kept, and the
    transaction flag of the connection.  It knows five statements. *)
Module Mini.

Record DB := {
  inTransaction : bool;
  rowsOfT : Z
}.

Record Stmt := {
  sourceSQL : string;
  readBigInts : bool;
  returnArrays : bool
}.

Definition sqliteError (message : string) : Thrown :=
  JsError (Some "ERR_SQLITE_ERROR") message.

Definition known (text : string) : bool :=
  String.eqb text "BEGIN" || String.eqb text "COMMIT" || String.eqb text "ROLLBACK"
  || String.eqb text "DELETE FROM t" || String.eqb text "SELECT count(*) FROM t".

Definition prepare (text : string) (d : DB) : DB * (Thrown + Stmt) :=
  if known text
  then (d, inr {| sourceSQL := text; readBigInts := false; returnArrays := false |})
  else (d, inl (sqliteError "syntax error")).

Definition columns (stmt : Stmt) : list Column :=
  if String.eqb (sourceSQL stmt) "SELECT count(*) FROM t"
  then [ {| col_name := "count(*)"; col_type := None |} ]
  else [].

Definition noChanges : StatementResultingChanges :=
  {| res_changes := CountNumber 0; res_lastInsertRowid := CountNumber 0 |}.

Definition run (stmt : Stmt) (bound : list JsValue) (d : DB)
    : DB * (Thrown + StatementResultingChanges) :=
  if String.eqb (sourceSQL stmt) "BEGIN" then
    if inTransaction d
    then (d, inl (sqliteError "cannot start a transaction within a transaction"))
    else ({| inTransaction := true; rowsOfT := rowsOfT d |}, inr noChanges)
  else if String.eqb (sourceSQL stmt) "COMMIT" || String.eqb (sourceSQL stmt) "ROLLBACK" then
    if inTransaction d
    then ({| inTransaction := false; rowsOfT := rowsOfT d |}, inr noChanges)
    else (d, inl (sqliteError "no transaction is active"))
  else if String.eqb (sourceSQL stmt) "DELETE FROM t" then
    ({| inTransaction := inTransaction d; rowsOfT := 0 |},
     inr {| res_changes := CountNumber (rowsOfT d); res_lastInsertRowid := CountNumber 0 |})
  else (d, inr noChanges).

Definition all (stmt : Stmt) (bound : list JsValue) (d : DB)
    : DB * (Thrown + list (list JsValue)) :=
  if String.eqb (sourceSQL stmt) "SELECT count(*) FROM t"
  then (d, inr [ [ if readBigInts stmt then JBigInt (rowsOfT d) else JNumber (rowsOfT d) ] ])
  else
    match run stmt bound d with
    | (d', inl e) => (d', inl e)
    | (d', inr _) => (d', inr [])
    end.

Definition exec (script : string) (d : DB) : DB * (Thrown + unit) :=
  match prepare script d with
  | (d', inl e) => (d', inl e)
  | (d', inr stmt) =>
      match run stmt [] d' with
      | (d'', inl e) => (d'', inl e)
      | (d'', inr _) => (d'', inr tt)
      end
  end.

#[global] Instance engine : DatabaseSync DB Stmt := {|
  db_prepare := prepare;
  stmt_has_setReturnArrays := fun _ => true;
  stmt_setReturnArrays := fun on stmt =>
    {| sourceSQL := sourceSQL stmt; readBigInts := readBigInts stmt; returnArrays := on |};
  stmt_setReadBigInts := fun on stmt =>
    {| sourceSQL := sourceSQL stmt; readBigInts := on; returnArrays := returnArrays stmt |};
  stmt_columns := columns;
  stmt_run := run;
  stmt_all := all;
  db_exec := exec;
  db_close := fun d => (d, inr tt)
|}.

(** A platform that keeps a JSON document as its text and whose clock
    knows the first two seconds of 1970. *)
#[global] Instance platform : Converter.Platform string := {|
  Converter.stringify := fun document => document;
  Converter.parse := fun text => Some text;
  Converter.toISOString := fun epochMs =>
    if epochMs =? 0 then "1970-01-01T00:00:00.000Z"
    else if epochMs =? 1000 then "1970-01-01T00:00:01.000Z"
    else "Invalid Date";
  Converter.parseDate := fun text =>
    if String.eqb text "1970-01-01T00:00:00.000Z" then Some 0
    else if String.eqb text "1970-01-01T00:00:01.000Z" then Some 1000
    else None
|}.

Abbreviation Value := (Converter.Value string).

#[global] Instance errors : Errors := {|
  convertDriverError := fun error =>
    match error with
    | JsError code message => RawDatabaseError code message
    | DriverAdapterError cause => cause
    end
|}.

Definition empty : DB := {| inTransaction := false; rowsOfT := 0 |}.

Definition query (text : string) : SqlQuery Value ColumnType :=
  {| sql := text; args := []; argTypes := [] |}.

Definition table (n : Z) : Client DB Stmt :=
  {| conn := {| inTransaction := false; rowsOfT := n |}; issued := [] |}.

(** Two callers: the first opens its transaction while the second waits;
    then the first commits, in SQL and on the transaction object, and the
    second goes on. *)
Definition oneByOne_before : list (Event Value ColumnType) :=
  [Start None; Start None; Resume 0%nat].

Definition oneByOne_after : list (Event Value ColumnType) :=
  [ExecuteRaw (query "COMMIT"); Commit 0%nat; Resume 1%nat].

(** A script has left a transaction active on the connection when
    [startTransaction] is called, so that its BEGIN fails; the script then
    rolls back and a second caller asks for a transaction. *)
Definition beginFails_before : list (Event Value ColumnType) :=
  [ExecuteScript "BEGIN"; Start None; Resume 0%nat].

Definition beginFails_after : list (Event Value ColumnType) :=
  [ExecuteScript "ROLLBACK"; Start (Some "SERIALIZABLE")].

Definition start : System DB Stmt := newSystem empty None.

(** Databases open empty; one path cannot be opened. *)
#[global] Instance constructor : DatabaseSyncConstructor DB unit := {|
  db_open := fun path _ =>
    if String.eqb path "/nowhere/dev.db"
    then inl (sqliteError "unable to open database file")
    else inr empty
|}.

(** Three callers ask for a transaction one after the other; the first
    has opened its own. *)
Definition threeCallers : list (Event Value ColumnType) :=
  [Start None; Resume 0%nat; Start None; Start None].

(** The state after the events, or the one before when they cannot happen. *)
Definition after (evs : list (Event Value ColumnType)) (s : System DB Stmt) : System DB Stmt :=
  match steps evs s with
  | Some s' => s'
  | None => s
  end.

End Mini.

(** * Properties *)

(** ** The isolation level check *)

Section IsolationLevels.
Context {DB Stmt Arg ArgType Cell : Type}.
Context `{!DatabaseSync DB Stmt, !Conversion Arg ArgType Cell, !Errors}.

Lemma levelName_truthy (l : IsolationLevel) : truthy (levelName l) = true.
Proof. destruct l; reflexivity. Qed.

Lemma levelName_serializable (l : IsolationLevel) :
  String.eqb (levelName l) "SERIALIZABLE" = true <-> l = SERIALIZABLE.
Proof. destruct l; simpl; split; intros E; try reflexivity; discriminate E. Qed.

Lemma startTransaction_enter_passes (lvl : option IsolationLevel) (a : Adapter DB Stmt) :
  lvl = None \/ lvl = Some SERIALIZABLE ->
  startTransaction_enter (levelName <$> lvl) a
    = (onMutex (fun _ => fst (acquire (mutex a))) a, inr (snd (acquire (mutex a)))).
Proof.
  intros [-> | ->]; simpl; unfold startTransaction_enter; simpl;
    destruct (acquire (mutex a)); reflexivity.
Qed.

Lemma startTransaction_enter_rejects (l : IsolationLevel) (a : Adapter DB Stmt) :
  l <> SERIALIZABLE ->
  startTransaction_enter (Some (levelName l)) a
    = (a, inl (DriverAdapterError (InvalidIsolationLevel (levelName l)))).
Proof. intros Hl. destruct l; try reflexivity. congruence. Qed.

(** C3.  Asked for any isolation level but SERIALIZABLE, [startTransaction]
    throws the invalid-isolation-level error at once and hands back the
    adapter as it was: the lock has not been touched, no call has reached
    the engine and the connection is in the state it was in. *)
Theorem unsupported_level_rejected_before_lock_and_sql :
  forall (l : IsolationLevel) (a : Adapter DB Stmt),
    l <> SERIALIZABLE ->
    startTransaction (Some (levelName l)) a
      = (a, inl (DriverAdapterError (InvalidIsolationLevel (levelName l))))
    /\ startTransaction_enter (Some (levelName l)) a
      = (a, inl (DriverAdapterError (InvalidIsolationLevel (levelName l))))
    /\ mutex (fst (startTransaction (Some (levelName l)) a)) = mutex a
    /\ issued (client (fst (startTransaction (Some (levelName l)) a))) = issued (client a)
    /\ conn (client (fst (startTransaction (Some (levelName l)) a))) = conn (client a).
Proof.
  intros l a Hl.
  pose proof (startTransaction_enter_rejects l a Hl) as E.
  assert (F : startTransaction (Some (levelName l)) a
              = (a, inl (DriverAdapterError (InvalidIsolationLevel (levelName l))))).
  { unfold startTransaction, bind. rewrite E. reflexivity. }
  rewrite F. repeat split; assumption || reflexivity.
Qed.


End IsolationLevels.

(** ** Statements *)

Section Statements.
Context {DB Stmt Arg ArgType Cell : Type}.
Context `{!DatabaseSync DB Stmt, !Conversion Arg ArgType Cell, !Errors}.

Implicit Types (c : Client DB Stmt) (query : SqlQuery Arg ArgType).
Implicit Types (adapterOptions : option PrismaNodeSQLiteOptions).

Lemma mapArgsFrom_first_failure adapterOptions (types : list ArgType) (rest : list Arg) :
  forall i k arg e,
    rest !! k = Some arg ->
    mapArg arg (types !! (i + k)%nat) adapterOptions = inl e ->
    exists k' arg' e',
      (k' <= k)%nat /\ rest !! k' = Some arg'
      /\ mapArg arg' (types !! (i + k')%nat) adapterOptions = inl e'
      /\ mapArgsFrom i rest types adapterOptions = inl e'.
Proof.
  induction rest as [|a rest IH]; intros i k arg e Hk He.
  - discriminate Hk.
  - simpl. destruct (mapArg a (types !! i) adapterOptions) as [e0|v] eqn:Ea.
    + exists 0%nat, a, e0. rewrite Nat.add_0_r. repeat split; auto. lia.
    + destruct k as [|k].
      * simpl in Hk. injection Hk as ->. rewrite Nat.add_0_r in He. congruence.
      * simpl in Hk. rewrite <- Nat.add_succ_comm in He.
        destruct (IH (S i) k arg e Hk He) as (k' & arg' & e' & Hle & Hk' & He' & Hm).
        exists (S k'), arg', e'. rewrite <- Nat.add_succ_comm.
        repeat split; auto; [lia|]. rewrite Hm. reflexivity.
Qed.

Lemma executeIO_conversion_failure adapterOptions query c e :
  mapArgs adapterOptions query = inl e ->
  executeIO adapterOptions query c = (c, inl (DriverAdapterError (convertDriverError e))).
Proof.
  intros E. unfold executeIO, try_catch, bind, pure_result. rewrite E. reflexivity.
Qed.

Lemma performIO_conversion_failure adapterOptions query c e :
  mapArgs adapterOptions query = inl e ->
  performIO adapterOptions query c = (c, inl (DriverAdapterError (convertDriverError e))).
Proof.
  intros E. unfold performIO, try_catch, bind, pure_result. rewrite E. reflexivity.
Qed.


(** C8.  A statement without result columns is run, and [queryRaw] answers
    with the empty result set: no column names, no column types, no rows. *)
Theorem queryRaw_of_a_pure_write_is_empty :
  forall adapterOptions query c bound (d1 d2 : DB) (stmt : Stmt) result,
    mapArgs adapterOptions query = inr bound ->
    db_prepare (sql query) (conn c) = (d1, inr stmt) ->
    stmt_columns (arranged stmt) = [] ->
    stmt_run (arranged stmt) bound d1 = (d2, inr result) ->
    queryRaw adapterOptions query c
      = ({| conn := d2;
            issued := issued c ++ [CallPrepare (sql query)]
                               ++ [CallRun (arranged stmt) bound] |},
         inr {| rs_columnNames := []; rs_columnTypes := []; rs_rows := [] |}).
Proof.
  intros adapterOptions query c bound d1 d2 stmt result Hargs Hprep Hcols Hrun.
  unfold queryRaw, performIO, try_catch, bind, pure_result, prepare, run, call, ret.
  rewrite Hargs. simpl. rewrite Hprep.
  fold (arranged stmt). rewrite Hcols. simpl. rewrite Hrun. simpl.
  rewrite <- app_assoc. reflexivity.
Qed.

Lemma round_to_double_exact (n : Z) : Z.abs n <= 2 ^ 53 -> round_to_double n = n.
Proof.
  intros Hn. unfold round_to_double.
  destruct (Z.abs n <? 2 ^ 53) eqn:E; [reflexivity|].
  apply Z.ltb_ge in E. assert (Ha : Z.abs n = 2 ^ 53) by lia.
  rewrite Ha.
  change (Z.log2 (2 ^ 53) - 52) with 1.
  change (Z.shiftr (2 ^ 53) 1) with (2 ^ 52).
  change (Z.land (2 ^ 53) (Z.ones 1)) with 0.
  change (Z.shiftl 1 (1 - 1)) with 1.
  change ((1 <? 0) || ((0 =? 1) && Z.odd (2 ^ 52))) with false.
  cbv iota. change (Z.shiftl (2 ^ 52) 1) with (2 ^ 53).
  rewrite <- Ha. rewrite Z.mul_comm. apply Z.abs_sgn.
Qed.

(** C6, as the code has it.  [executeRaw] answers with the count of changes
    that the engine reported for the run, put through [Number] and nothing
    else: a number comes back as it is, and so does a [bigint] of at most
    2^53 in size.  The count is not brought into 32 bits. *)
Theorem executeRaw_returns_the_count_unnarrowed :
  forall adapterOptions query c bound (d1 d2 : DB) (stmt : Stmt) result,
    mapArgs adapterOptions query = inr bound ->
    db_prepare (sql query) (conn c) = (d1, inr stmt) ->
    stmt_run stmt bound d1 = (d2, inr result) ->
    executeRaw adapterOptions query c
      = ({| conn := d2;
            issued := issued c ++ [CallPrepare (sql query)] ++ [CallRun stmt bound] |},
         inr (Number (res_changes result)))
    /\ (forall n, res_changes result = CountNumber n -> Number (res_changes result) = n)
    /\ (forall n, res_changes result = CountBigInt n -> Z.abs n <= 2 ^ 53 ->
                  Number (res_changes result) = n).
Proof.
  intros adapterOptions query c bound d1 d2 stmt result Hargs Hprep Hrun.
  split; [|split].
  - unfold executeRaw, executeIO, try_catch, bind, pure_result, prepare, run, call, ret.
    rewrite Hargs. simpl. rewrite Hprep. simpl. rewrite Hrun. simpl.
    rewrite <- app_assoc. reflexivity.
  - intros n ->. reflexivity.
  - intros n -> Hn. simpl. apply round_to_double_exact. exact Hn.
Qed.

End Statements.

(** ** Transactions *)

Section Transactions.
Context {DB Stmt Arg ArgType Cell : Type}.
Context `{!DatabaseSync DB Stmt, !Conversion Arg ArgType Cell, !Errors}.

Implicit Types (a : Adapter DB Stmt) (tx : NodeSQLiteTransaction).

Lemma runBegin_mutex a : mutex (fst (runBegin a)) = mutex a.
Proof. unfold runBegin, onClient. destruct (bind _ _ (client a)); reflexivity. Qed.

Lemma runBegin_options a : adapterOptions (fst (runBegin a)) = adapterOptions a.
Proof. unfold runBegin, onClient. destruct (bind _ _ (client a)); reflexivity. Qed.

Lemma runBegin_issued a :
  issued (client (fst (runBegin a))) = issued (client a) ++ [CallPrepare "BEGIN"]
  \/ exists stmt : Stmt,
       issued (client (fst (runBegin a)))
       = issued (client a) ++ [CallPrepare "BEGIN"; CallRun stmt []].
Proof.
  unfold runBegin, onClient, bind, prepare, run, call. simpl.
  destruct (db_prepare "BEGIN" (conn (client a))) as [d [e|stmt]]; simpl.
  - left. reflexivity.
  - right. exists stmt. destruct (stmt_run stmt [] d) as [d' r]; simpl.
    rewrite <- app_assoc. reflexivity.
Qed.

Lemma startTransaction_resume_state task a :
  fst (startTransaction_resume task a) = fst (runBegin a).
Proof.
  unfold startTransaction_resume, try_catch, bind, onError, throw.
  destruct (runBegin a) as [b [e|r]]; reflexivity.
Qed.

Lemma startTransaction_resume_mutex task a :
  mutex (fst (startTransaction_resume task a)) = mutex a.
Proof. rewrite startTransaction_resume_state. apply runBegin_mutex. Qed.

Lemma startTransaction_enter_client lvl a :
  client (fst (startTransaction_enter lvl a)) = client a.
Proof.
  unfold startTransaction_enter.
  destruct lvl as [level|]; [destruct (truthy level && _)|];
    try reflexivity; destruct (acquire (mutex a)); reflexivity.
Qed.

(** C7.  [commit] and [rollback] call the releaser of the transaction and
    do nothing else: the client is the same after as before, with no call
    issued and the connection as it was.  Of the two halves of
    [startTransaction] the first issues nothing, and the second prepares
    BEGIN and, when that worked, runs it, and issues nothing else. *)
Theorem commit_and_rollback_only_release :
  forall tx a,
    commit tx a = (onMutex (releaser (unlockParent tx)) a, inr tt)
    /\ rollback tx a = (onMutex (releaser (unlockParent tx)) a, inr tt)
    /\ client (fst (commit tx a)) = client a
    /\ client (fst (rollback tx a)) = client a
    /\ (forall lvl, client (fst (startTransaction_enter lvl a)) = client a)
    /\ (forall task,
          issued (client (fst (startTransaction_resume task a)))
            = issued (client a) ++ [CallPrepare "BEGIN"]
          \/ exists stmt : Stmt,
               issued (client (fst (startTransaction_resume task a)))
               = issued (client a) ++ [CallPrepare "BEGIN"; CallRun stmt []]).
Proof.
  intros tx a.
  split; [reflexivity|]. split; [reflexivity|].
  split; [reflexivity|]. split; [reflexivity|]. split.
  - intros lvl. apply startTransaction_enter_client.
  - intros task. rewrite startTransaction_resume_state. apply runBegin_issued.
Qed.

End Transactions.

(** ** Conversions *)

Section Conversions.
Context {Json : Type} `{!Converter.Platform Json}.

Lemma mapRow_single (value : JsValue) (columnType : ColumnType) :
  mapRow [value] [columnType]
  = match Converter.mapValue value (Some columnType) with
    | inl e => inl e
    | inr v => inr [v]
    end.
Proof.
  unfold mapRow, converter, Converter.mapRow. simpl.
  destruct (Converter.mapValue value (Some columnType)); reflexivity.
Qed.

Lemma sameValue_integers (v v' : Converter.Value Json) (n : Z) :
  Converter.integerOf v = Some n -> Converter.integerOf v' = Some n ->
  Converter.sameValue v v'.
Proof. intros E E'. right. exists n. split; assumption. Qed.


End Conversions.

(** ** Column types *)

Section ColumnTypes.
Context {DB Stmt Arg ArgType Cell : Type}.
Context `{!DatabaseSync DB Stmt, !Conversion Arg ArgType Cell, !Errors}.

Implicit Types (c : Client DB Stmt) (query : SqlQuery Arg ArgType).
Implicit Types (rows : list (list JsValue)) (columnTypes : list ColumnType).

Lemma inferColumnType_first_non_null rows (index : nat) :
  forall (k : nat) (row : list JsValue) (value : JsValue),
    rows !! k = Some row ->
    row !! index = Some value ->
    value <> JNull ->
    (forall (j : nat) (row' : list JsValue),
        (j < k)%nat -> rows !! j = Some row' -> row' !! index = Some JNull) ->
    inferColumnType rows index = inferColumnTypeFromValue value.
Proof.
  induction rows as [|r rows IH]; intros k row value Hk Hv Hn Hbefore.
  - discriminate Hk.
  - destruct k as [|k]; simpl in Hk.
    + injection Hk as ->. simpl. rewrite Hv. destruct value; congruence.
    + simpl. rewrite (Hbefore 0%nat r ltac:(lia) eq_refl).
      apply (IH k row value Hk Hv Hn).
      intros j row' Hj Hr. apply (Hbefore (S j) row'); [lia | exact Hr].
Qed.

Lemma inferColumnType_all_null rows (index : nat) :
  (forall row : list JsValue, row ∈ rows -> row !! index = Some JNull) ->
  inferColumnType rows index = CtUnknown.
Proof.
  induction rows as [|r rows IH]; intros Hall; simpl; [reflexivity|].
  rewrite (Hall r); [|left]. apply IH. intros row Hin. apply Hall. right. exact Hin.
Qed.

Lemma getColumnTypes_undeclared (declared : list (option string)) rows (index : nat) :
  declared !! index = Some None ->
  getColumnTypes declared rows !! index = Some (inferColumnType rows index).
Proof.
  intros Hd. unfold getColumnTypes. rewrite list_lookup_imap, Hd. reflexivity.
Qed.

Lemma mapRows_each rows columnTypes :
  forall mapped : list (list Cell),
    mapRows rows columnTypes = inr mapped ->
    forall (k : nat) (row : list JsValue),
      rows !! k = Some row ->
      exists cells, mapped !! k = Some cells /\ mapRow row columnTypes = inr cells.
Proof.
  induction rows as [|r rows IH]; intros mapped Hm k row Hk; [discriminate Hk|].
  simpl in Hm.
  destruct (mapRow r columnTypes) as [e|cells] eqn:Er; [discriminate Hm|].
  destruct (mapRows rows columnTypes) as [e|more] eqn:Em; [discriminate Hm|].
  injection Hm as <-.
  destruct k as [|k]; simpl in Hk.
  - injection Hk as <-. exists cells. split; [reflexivity | exact Er].
  - apply (IH more eq_refl k row Hk).
Qed.

Lemma mapRows_length rows columnTypes :
  forall mapped : list (list Cell),
    mapRows rows columnTypes = inr mapped -> length mapped = length rows.
Proof.
  induction rows as [|r rows IH]; intros mapped Hm; simpl in Hm.
  - injection Hm as <-. reflexivity.
  - destruct (mapRow r columnTypes); [discriminate Hm|].
    destruct (mapRows rows columnTypes) as [|more]; [discriminate Hm|].
    injection Hm as <-. simpl. f_equal. apply (IH more eq_refl).
Qed.

Lemma mapRows_failure rows columnTypes (e : Thrown) :
  mapRows rows columnTypes = inl e ->
  exists row : list JsValue, row ∈ rows /\ mapRow row columnTypes = inl e.
Proof.
  induction rows as [|r rows IH]; intros Hm; [discriminate Hm|].
  simpl in Hm.
  destruct (mapRow r columnTypes) as [e0|cells] eqn:Er.
  - injection Hm as <-. exists r. split; [left | exact Er].
  - destruct (mapRows rows columnTypes) as [e1|more] eqn:Em; [|discriminate Hm].
    injection Hm as <-. destruct (IH eq_refl) as (row & Hin & Hr).
    exists row. split; [right; exact Hin | exact Hr].
Qed.

(** The rows [[null], [5], ["x"]] of one undeclared column: an integer column. *)
Example column_of_null_5_x :
  getColumnTypes [None] [[JNull]; [JNumber 5]; [JString "x"]] = [CtInt32].
Proof. reflexivity. Qed.


End ColumnTypes.

(** ** The lock *)

Section MutexProperties.

Lemma dispatchQueue_locked (pending : list nat) (m : Mutex) :
  sem_value m <= 0 -> dispatchQueue pending m = m.
Proof.
  intros Hv. destruct pending as [|task rest]; simpl; [reflexivity|].
  destruct (1 <=? sem_value m) eqn:E; [|reflexivity].
  apply Z.leb_le in E. lia.
Qed.

Lemma release_of_locked (m : Mutex) :
  sem_value m = 0 ->
  release m =
    match sem_queue m with
    | [] => {| sem_value := 1; sem_queue := []; sem_resolved := sem_resolved m;
               sem_called := sem_called m; sem_tasks := sem_tasks m |}
    | task :: rest =>
        {| sem_value := 0; sem_queue := rest;
           sem_resolved := {[task]} ∪ sem_resolved m;
           sem_called := sem_called m; sem_tasks := sem_tasks m |}
    end.
Proof.
  intros Hv. unfold release. rewrite Hv.
  destruct (sem_queue m) as [|task rest]; simpl; [reflexivity|].
  rewrite dispatchQueue_locked; simpl; [reflexivity | lia].
Qed.

Lemma newMutex_inv : MutexInv newMutex.
Proof.
  constructor; simpl.
  - right. reflexivity.
  - intros _ t [Hr _]. set_solver.
  - intros t1 t2 [Hr _]. set_solver.
  - set_solver.
  - intros t Ht. inversion Ht.
  - constructor.
  - intros t [Ht | Ht]; [set_solver | inversion Ht].
Qed.

Lemma holds_locked (m : Mutex) (t : nat) : MutexInv m -> holds m t -> sem_value m = 0.
Proof.
  intros I Ht. destruct (inv_value m I) as [E | E]; [exact E|].
  destruct (inv_free m I E t Ht).
Qed.

Lemma acquire_task (m : Mutex) : snd (acquire m) = sem_tasks m.
Proof.
  unfold acquire. simpl. destruct (sem_queue m); [destruct (1 <=? sem_value m)|]; reflexivity.
Qed.

Lemma acquire_tasks (m : Mutex) : sem_tasks (fst (acquire m)) = S (sem_tasks m).
Proof.
  unfold acquire. simpl. destruct (sem_queue m); [destruct (1 <=? sem_value m)|]; reflexivity.
Qed.

Lemma acquire_called (m : Mutex) : sem_called (fst (acquire m)) = sem_called m.
Proof.
  unfold acquire. simpl. destruct (sem_queue m); [destruct (1 <=? sem_value m)|]; reflexivity.
Qed.

Lemma acquire_resolved_mono (m : Mutex) (t : nat) :
  t ∈ sem_resolved m -> t ∈ sem_resolved (fst (acquire m)).
Proof.
  unfold acquire. simpl. destruct (sem_queue m); [destruct (1 <=? sem_value m)|]; simpl;
    set_solver.
Qed.

Lemma acquire_holds (m : Mutex) (t : nat) : holds m t -> holds (fst (acquire m)) t.
Proof.
  intros [Hr Hc]. split; [apply acquire_resolved_mono; exact Hr|].
  rewrite acquire_called. exact Hc.
Qed.

Lemma acquire_inv (m : Mutex) : MutexInv m -> MutexInv (fst (acquire m)).
Proof.
  intros I. pose proof (inv_numbered m I) as HB.
  assert (Hfresh : sem_tasks m ∉ sem_resolved m).
  { intros Hin. specialize (HB _ (or_introl Hin)). lia. }
  assert (Hfreshq : sem_tasks m ∉ sem_queue m).
  { intros Hin. specialize (HB _ (or_intror Hin)). lia. }
  assert (Hfreshc : sem_tasks m ∉ sem_called m).
  { intros Hin. apply Hfresh. apply (inv_called m I). exact Hin. }
  unfold acquire. simpl.
  destruct (sem_queue m) as [|h q] eqn:Eq.
  - destruct (1 <=? sem_value m) eqn:Ev.
    + apply Z.leb_le in Ev.
      assert (E1 : sem_value m = 1) by (destruct (inv_value m I); lia).
      pose proof (inv_free m I E1) as Hnone.
      assert (Only : forall t, holds (dispatchItem (sem_tasks m)
                       {| sem_value := sem_value m; sem_queue := [];
                          sem_resolved := sem_resolved m; sem_called := sem_called m;
                          sem_tasks := S (sem_tasks m) |}) t -> t = sem_tasks m).
      { intros t [Hr Hc]. simpl in Hr, Hc.
        apply elem_of_union in Hr as [Hr | Hr]; [set_solver|].
        destruct (Hnone t). split; assumption. }
      constructor; simpl.
      * left. lia.
      * intros E. lia.
      * intros t1 t2 H1 H2. rewrite (Only t1 H1), (Only t2 H2). reflexivity.
      * intros t Ht. apply elem_of_union. right. apply (inv_called m I). exact Ht.
      * intros t Ht. inversion Ht.
      * constructor.
      * intros t [Ht | Ht]; [|inversion Ht].
        apply elem_of_union in Ht as [Ht | Ht].
        -- apply elem_of_singleton in Ht. lia.
        -- specialize (HB t (or_introl Ht)). lia.
    + apply Z.leb_gt in Ev.
      constructor; simpl.
      * apply (inv_value m I).
      * intros E. lia.
      * apply (inv_single m I).
      * apply (inv_called m I).
      * intros t Ht. apply list_elem_of_singleton in Ht. subst t. exact Hfresh.
      * apply NoDup_singleton.
      * intros t [Ht | Ht].
        -- specialize (HB t (or_introl Ht)). lia.
        -- apply list_elem_of_singleton in Ht. lia.
  - constructor; simpl.
    + apply (inv_value m I).
    + apply (inv_free m I).
    + apply (inv_single m I).
    + apply (inv_called m I).
    + intros t Ht. change (t ∈ (h :: q) ++ [sem_tasks m]) in Ht.
      apply elem_of_app in Ht as [Ht | Ht].
      * apply (inv_queued m I). rewrite Eq. exact Ht.
      * apply list_elem_of_singleton in Ht. subst t. exact Hfresh.
    + change (NoDup ((h :: q) ++ [sem_tasks m])).
      apply NoDup_app. split; [rewrite <- Eq; apply (inv_nodup m I)|]. split.
      * intros t Ht Hs. apply list_elem_of_singleton in Hs. subst t.
        apply Hfreshq. exact Ht.
      * apply NoDup_singleton.
    + intros t [Ht | Ht].
      * specialize (HB t (or_introl Ht)). lia.
      * change (t ∈ (h :: q) ++ [sem_tasks m]) in Ht.
        apply elem_of_app in Ht as [Ht | Ht].
        -- specialize (HB t (or_intror Ht)). lia.
        -- apply list_elem_of_singleton in Ht. lia.
Qed.

Lemma releaser_called_again (m : Mutex) (t : nat) : t ∈ sem_called m -> releaser t m = m.
Proof. intros Hc. unfold releaser. rewrite bool_decide_eq_true_2; [reflexivity | exact Hc]. Qed.

Lemma releaser_of_holder (m : Mutex) (t : nat) :
  MutexInv m -> holds m t ->
  releaser t m =
    match sem_queue m with
    | [] => {| sem_value := 1; sem_queue := []; sem_resolved := sem_resolved m;
               sem_called := {[t]} ∪ sem_called m; sem_tasks := sem_tasks m |}
    | task :: rest =>
        {| sem_value := 0; sem_queue := rest;
           sem_resolved := {[task]} ∪ sem_resolved m;
           sem_called := {[t]} ∪ sem_called m; sem_tasks := sem_tasks m |}
    end.
Proof.
  intros I Ht. pose proof (holds_locked m t I Ht) as Hv. destruct Ht as [Hr Hc].
  unfold releaser. rewrite bool_decide_eq_false_2 by exact Hc.
  rewrite release_of_locked by exact Hv. simpl.
  destruct (sem_queue m); reflexivity.
Qed.

Lemma releaser_tasks (m : Mutex) (t : nat) :
  MutexInv m -> holds m t -> sem_tasks (releaser t m) = sem_tasks m.
Proof.
  intros I Ht. rewrite (releaser_of_holder m t I Ht). destruct (sem_queue m); reflexivity.
Qed.

Lemma releaser_called (m : Mutex) (t : nat) :
  MutexInv m -> holds m t -> sem_called (releaser t m) = {[t]} ∪ sem_called m.
Proof.
  intros I Ht. rewrite (releaser_of_holder m t I Ht). destruct (sem_queue m); reflexivity.
Qed.

(** Once called, a releaser does nothing: calling it a second time leaves
    the mutex as the first call left it. *)
Lemma releaser_idempotent (m : Mutex) (t : nat) :
  MutexInv m -> holds m t -> releaser t (releaser t m) = releaser t m.
Proof.
  intros I Ht. apply releaser_called_again.
  rewrite (releaser_called m t I Ht). set_solver.
Qed.

Lemma releaser_inv (m : Mutex) (t : nat) :
  MutexInv m -> holds m t -> MutexInv (releaser t m).
Proof.
  intros I Ht. rewrite (releaser_of_holder m t I Ht).
  assert (Honly : forall t', t' ∈ sem_resolved m -> t' ∉ {[t]} ∪ sem_called m -> False).
  { intros t' Hr Hc. assert (Ht' : holds m t') by (split; set_solver).
    pose proof (inv_single m I t' t Ht' Ht). set_solver. }
  destruct Ht as [Hr Hc].
  pose proof (inv_called m I) as HC. pose proof (inv_queued m I) as HQ.
  pose proof (inv_nodup m I) as HN. pose proof (inv_numbered m I) as HB.
  destruct (sem_queue m) as [|h q] eqn:Eq.
  - constructor; simpl.
    + right. reflexivity.
    + intros _ t' [Hr' Hc']. simpl in Hr', Hc'. exact (Honly t' Hr' Hc').
    + intros t1 t2 [Hr1 Hc1] _. simpl in Hr1, Hc1. destruct (Honly t1 Hr1 Hc1).
    + intros t' Ht'. apply elem_of_union in Ht' as [Ht' | Ht'].
      * apply elem_of_singleton in Ht'. subst t'. exact Hr.
      * apply HC. exact Ht'.
    + intros t' Ht'. inversion Ht'.
    + constructor.
    + intros t' [Ht' | Ht']; [|inversion Ht']. apply HB. left. exact Ht'.
  - assert (Hh : h ∉ sem_resolved m) by (apply HQ; left).
    assert (Only : forall t', t' ∈ {[h]} ∪ sem_resolved m ->
                              t' ∉ {[t]} ∪ sem_called m -> t' = h).
    { intros t' Hr' Hc'. apply elem_of_union in Hr' as [Hr' | Hr'].
      - apply elem_of_singleton in Hr'. exact Hr'.
      - destruct (Honly t' Hr' Hc'). }
    constructor; simpl.
    + left. reflexivity.
    + intros E. discriminate E.
    + intros t1 t2 [Hr1 Hc1] [Hr2 Hc2]. simpl in Hr1, Hc1, Hr2, Hc2.
      rewrite (Only t1 Hr1 Hc1), (Only t2 Hr2 Hc2). reflexivity.
    + intros t' Ht'. apply elem_of_union. right.
      apply elem_of_union in Ht' as [Ht' | Ht'].
      * apply elem_of_singleton in Ht'. subst t'. exact Hr.
      * apply HC. exact Ht'.
    + intros t' Ht' Hr'. apply elem_of_union in Hr' as [Hr' | Hr'].
      * apply elem_of_singleton in Hr'. subst t'.
        apply NoDup_cons in HN as [Hnotin _]. exact (Hnotin Ht').
      * apply (HQ t'); [right; exact Ht' | exact Hr'].
    + apply NoDup_cons in HN as [_ HN]. exact HN.
    + intros t' [Ht' | Ht'].
      * apply elem_of_union in Ht' as [Ht' | Ht'].
        -- apply elem_of_singleton in Ht'. subst t'. apply HB. right. left.
        -- apply HB. left. exact Ht'.
      * apply HB. right. right. exact Ht'.
Qed.

End MutexProperties.

(** ** One open transaction at a time *)

Section SystemProperties.
Context {DB Stmt Arg ArgType Cell : Type}.
Context `{!DatabaseSync DB Stmt, !Conversion Arg ArgType Cell, !Errors}.

Implicit Types (a : Adapter DB Stmt) (s : System DB Stmt) (ev : Event Arg ArgType).

Lemma onClient_mutex {A} (c : IO (Client DB Stmt) A) a :
  mutex (fst (onClient c a)) = mutex a.
Proof. unfold onClient. destruct (c (client a)); reflexivity. Qed.

Lemma startTransaction_enter_cases lvl a :
  (exists e, startTransaction_enter lvl a = (a, inl e))
  \/ startTransaction_enter lvl a
     = (onMutex (fun _ => fst (acquire (mutex a))) a, inr (snd (acquire (mutex a)))).
Proof.
  unfold startTransaction_enter.
  destruct lvl as [level|]; [destruct (truthy level && _)|].
  - left. eexists. reflexivity.
  - right. destruct (acquire (mutex a)); reflexivity.
  - right. destruct (acquire (mutex a)); reflexivity.
Qed.

Lemma SystemInv_transfer s s' :
  mutex (adapter s') = mutex (adapter s) -> phase s' = phase s ->
  SystemInv s -> SystemInv s'.
Proof.
  intros Em Ep I. destruct I as [I1 I2 I3 I4 I5 I6].
  constructor; rewrite ?Em, ?Ep; assumption.
Qed.

Lemma newSystem_inv (d : DB) adapterOptions : SystemInv (newSystem (Stmt := Stmt) d adapterOptions).
Proof.
  constructor; simpl.
  - apply newMutex_inv.
  - intros t [p Hp]. rewrite lookup_empty in Hp. discriminate Hp.
  - intros t Hp. rewrite lookup_empty in Hp. discriminate Hp.
  - intros t Hp. rewrite lookup_empty in Hp. discriminate Hp.
  - intros t Hp. rewrite lookup_empty in Hp. discriminate Hp.
  - intros t [Hp | Hp]; rewrite lookup_empty in Hp; discriminate Hp.
Qed.

Lemma start_inv s (t0 : nat) a' :
  SystemInv s ->
  mutex a' = fst (acquire (mutex (adapter s))) ->
  t0 = sem_tasks (mutex (adapter s)) ->
  SystemInv {| adapter := a'; phase := <[t0 := Acquiring]> (phase s) |}.
Proof.
  intros I Em ->. destruct I as [I1 I2 I3 I4 I5 I6].
  set (m := mutex (adapter s)) in *.
  assert (Hfreshc : sem_tasks m ∉ sem_called m).
  { intros Hin. apply (inv_called m I1) in Hin.
    pose proof (inv_numbered m I1 _ (or_introl Hin)). lia. }
  constructor; simpl; rewrite Em.
  - apply acquire_inv. exact I1.
  - intros t Hs. rewrite acquire_tasks.
    destruct (decide (sem_tasks m = t)) as [<- | Hne]; [lia|].
    rewrite lookup_insert_ne in Hs by exact Hne. specialize (I2 t Hs). fold m in I2. lia.
  - intros t Hp. rewrite acquire_called.
    destruct (decide (sem_tasks m = t)) as [<- | Hne]; [exact Hfreshc|].
    rewrite lookup_insert_ne in Hp by exact Hne. apply I3. exact Hp.
  - intros t Hp.
    destruct (decide (sem_tasks m = t)) as [<- | Hne].
    + rewrite lookup_insert_eq in Hp. discriminate Hp.
    + rewrite lookup_insert_ne in Hp by exact Hne. apply acquire_holds. apply I4. exact Hp.
  - intros t Hp.
    destruct (decide (sem_tasks m = t)) as [<- | Hne].
    + rewrite lookup_insert_eq in Hp. discriminate Hp.
    + rewrite lookup_insert_ne in Hp by exact Hne. apply acquire_holds. apply I5. exact Hp.
  - intros t Hp. rewrite acquire_called.
    destruct (decide (sem_tasks m = t)) as [<- | Hne].
    + rewrite lookup_insert_eq in Hp. destruct Hp as [Hp | Hp]; discriminate Hp.
    + rewrite lookup_insert_ne in Hp by exact Hne. apply I6. exact Hp.
Qed.

Lemma resume_inv s (task : nat) a' (p : Phase) :
  SystemInv s ->
  mutex a' = mutex (adapter s) ->
  phase s !! task = Some Acquiring ->
  task ∈ sem_resolved (mutex (adapter s)) ->
  p = Open \/ p = Failed ->
  SystemInv {| adapter := a'; phase := <[task := p]> (phase s) |}.
Proof.
  intros I Em Hp Hr Hcase. destruct I as [I1 I2 I3 I4 I5 I6].
  assert (Hh : holds (mutex (adapter s)) task) by (split; [exact Hr | apply I3; exact Hp]).
  constructor; simpl; rewrite Em.
  - exact I1.
  - intros t Hs. destruct (decide (task = t)) as [<- | Hne].
    + apply I2. rewrite Hp. eexists; reflexivity.
    + rewrite lookup_insert_ne in Hs by exact Hne. apply I2. exact Hs.
  - intros t Ht. destruct (decide (task = t)) as [<- | Hne].
    + rewrite lookup_insert_eq in Ht. destruct Hcase; congruence.
    + rewrite lookup_insert_ne in Ht by exact Hne. apply I3. exact Ht.
  - intros t Ht. destruct (decide (task = t)) as [<- | Hne]; [exact Hh|].
    rewrite lookup_insert_ne in Ht by exact Hne. apply I4. exact Ht.
  - intros t Ht. destruct (decide (task = t)) as [<- | Hne]; [exact Hh|].
    rewrite lookup_insert_ne in Ht by exact Hne. apply I5. exact Ht.
  - intros t Ht. destruct (decide (task = t)) as [<- | Hne].
    + rewrite lookup_insert_eq in Ht. destruct Hcase, Ht; congruence.
    + rewrite lookup_insert_ne in Ht by exact Hne. apply I6. exact Ht.
Qed.

Lemma end_inv s (task : nat) a' (p : Phase) :
  SystemInv s ->
  mutex a' = releaser task (mutex (adapter s)) ->
  phase s !! task = Some Open ->
  p = Committed \/ p = RolledBack ->
  SystemInv {| adapter := a'; phase := <[task := p]> (phase s) |}.
Proof.
  intros I Em Hp Hcase. destruct I as [I1 I2 I3 I4 I5 I6].
  pose proof (I4 task Hp) as Hh.
  assert (Hother : forall t, task <> t -> holds (mutex (adapter s)) t -> False).
  { intros t Hne Ht. apply Hne. apply (inv_single _ I1); assumption. }
  constructor; simpl; rewrite Em.
  - apply releaser_inv; assumption.
  - intros t Hs. rewrite releaser_tasks by assumption.
    destruct (decide (task = t)) as [<- | Hne].
    + apply I2. rewrite Hp. eexists; reflexivity.
    + rewrite lookup_insert_ne in Hs by exact Hne. apply I2. exact Hs.
  - intros t Ht. rewrite releaser_called by assumption.
    destruct (decide (task = t)) as [<- | Hne].
    + rewrite lookup_insert_eq in Ht. destruct Hcase; congruence.
    + rewrite lookup_insert_ne in Ht by exact Hne. specialize (I3 t Ht).
      intros Hin. apply elem_of_union in Hin as [Hin | Hin]; [|exact (I3 Hin)].
      apply elem_of_singleton in Hin. congruence.
  - intros t Ht. destruct (decide (task = t)) as [<- | Hne].
    + rewrite lookup_insert_eq in Ht. destruct Hcase; congruence.
    + rewrite lookup_insert_ne in Ht by exact Hne. destruct (Hother t Hne (I4 t Ht)).
  - intros t Ht. destruct (decide (task = t)) as [<- | Hne].
    + rewrite lookup_insert_eq in Ht. destruct Hcase; congruence.
    + rewrite lookup_insert_ne in Ht by exact Hne. destruct (Hother t Hne (I5 t Ht)).
  - intros t Ht. rewrite releaser_called by assumption.
    apply elem_of_union.
    destruct (decide (task = t)) as [<- | Hne]; [left; apply elem_of_singleton; reflexivity|].
    rewrite lookup_insert_ne in Ht by exact Hne. right. apply I6. exact Ht.
Qed.

Lemma ended_again_inv s (task : nat) a' :
  SystemInv s ->
  mutex a' = releaser task (mutex (adapter s)) ->
  phase s !! task = Some Committed \/ phase s !! task = Some RolledBack ->
  SystemInv {| adapter := a'; phase := phase s |}.
Proof.
  intros I Em Hp. apply (SystemInv_transfer s); [|reflexivity | exact I].
  simpl. rewrite Em. apply releaser_called_again. apply (inv_ended s I). exact Hp.
Qed.

(** Every event keeps the invariant. *)
Lemma step_inv ev s s' : SystemInv s -> step ev s = Some s' -> SystemInv s'.
Proof.
  intros I Hstep. destruct ev as [lvl | task | task | task | query | query | script];
    simpl in Hstep.
  - destruct (startTransaction_enter_cases lvl (adapter s)) as [[e E] | E];
      rewrite E in Hstep; injection Hstep as <-.
    + apply (SystemInv_transfer s); [reflexivity | reflexivity | exact I].
    + apply start_inv; [exact I | reflexivity | apply acquire_task].
  - destruct (phase s !! task) as [[| | | |]|] eqn:Hp; try discriminate Hstep.
    destruct (bool_decide (task ∈ sem_resolved (mutex (adapter s)))) eqn:Hr;
      [|discriminate Hstep].
    apply bool_decide_eq_true in Hr.
    pose proof (startTransaction_resume_mutex task (adapter s)) as Em.
    destruct (startTransaction_resume task (adapter s)) as [a' [e|tx]];
      injection Hstep as <-; simpl in Em.
    + apply resume_inv; auto.
    + apply resume_inv; auto.
  - destruct (phase s !! task) as [[| | | |]|] eqn:Hp; try discriminate Hstep;
      injection Hstep as <-.
    + apply end_inv; auto.
    + apply (ended_again_inv s task); auto.
    + apply (ended_again_inv s task); auto.
  - destruct (phase s !! task) as [[| | | |]|] eqn:Hp; try discriminate Hstep;
      injection Hstep as <-.
    + apply end_inv; auto.
    + apply (ended_again_inv s task); auto.
    + apply (ended_again_inv s task); auto.
  - injection Hstep as <-.
    apply (SystemInv_transfer s); [apply onClient_mutex | reflexivity | exact I].
  - injection Hstep as <-.
    apply (SystemInv_transfer s); [apply onClient_mutex | reflexivity | exact I].
  - injection Hstep as <-.
    apply (SystemInv_transfer s); [apply onClient_mutex | reflexivity | exact I].
Qed.

Lemma steps_inv (evs : list (Event Arg ArgType)) :
  forall s s', SystemInv s -> steps evs s = Some s' -> SystemInv s'.
Proof.
  induction evs as [|ev evs IH]; intros s s' I Hs; simpl in Hs.
  - injection Hs as <-. exact I.
  - destruct (step ev s) as [s1|] eqn:E; [|discriminate Hs].
    apply (IH s1 s'); [apply (step_inv ev s s1 I E) | exact Hs].
Qed.

Lemma reachable_inv (d : DB) adapterOptions (evs : list (Event Arg ArgType)) s :
  steps evs (newSystem d adapterOptions) = Some s -> SystemInv s.
Proof. apply steps_inv. apply newSystem_inv. Qed.

Lemma steps_app (evs1 evs2 : list (Event Arg ArgType)) s s1 s2 :
  steps evs1 s = Some s1 -> steps evs2 s1 = Some s2 -> steps (evs1 ++ evs2) s = Some s2.
Proof.
  revert s. induction evs1 as [|ev evs1 IH]; intros s H1 H2; simpl in *.
  - injection H1 as ->. exact H2.
  - destruct (step ev s) as [s'|]; [|discriminate H1]. apply (IH s' H1 H2).
Qed.

(** The phases of a call follow each other in one direction only:
    acquiring, then open or failed, and from open to committed or rolled
    back. *)
Lemma step_phase ev s s' (t : nat) (p : Phase) :
  SystemInv s -> step ev s = Some s' -> phase s !! t = Some p ->
  exists p', phase s' !! t = Some p'
             /\ (p' = p
                 \/ (p = Acquiring /\ (p' = Open \/ p' = Failed))
                 \/ (p = Open /\ (p' = Committed \/ p' = RolledBack))).
Proof.
  intros I Hstep Hp.
  assert (Same : phase s' = phase s ->
                 exists p', phase s' !! t = Some p'
                   /\ (p' = p \/ (p = Acquiring /\ (p' = Open \/ p' = Failed))
                               \/ (p = Open /\ (p' = Committed \/ p' = RolledBack)))).
  { intros ->. exists p. split; [exact Hp | left; reflexivity]. }
  assert (Put : forall task p',
             phase s' = <[task := p']> (phase s) ->
             (task = t -> (p = Acquiring /\ (p' = Open \/ p' = Failed))
                          \/ (p = Open /\ (p' = Committed \/ p' = RolledBack))) ->
             exists p', phase s' !! t = Some p'
               /\ (p' = p \/ (p = Acquiring /\ (p' = Open \/ p' = Failed))
                           \/ (p = Open /\ (p' = Committed \/ p' = RolledBack)))).
  { intros task p' -> Hcase. destruct (decide (task = t)) as [E | Hne].
    - subst task. exists p'. rewrite lookup_insert_eq. split; [reflexivity|].
      right. apply Hcase. reflexivity.
    - exists p. rewrite lookup_insert_ne by exact Hne. split; [exact Hp | left; reflexivity]. }
  destruct ev as [lvl | task | task | task | query | query | script]; simpl in Hstep.
  - destruct (startTransaction_enter_cases lvl (adapter s)) as [[e E] | E];
      rewrite E in Hstep; injection Hstep as <-.
    + apply Same. reflexivity.
    + apply (Put (snd (acquire (mutex (adapter s)))) Acquiring); [reflexivity|].
      intros Et. rewrite acquire_task in Et.
      assert (Hlt : (t < sem_tasks (mutex (adapter s)))%nat).
      { apply (inv_known s I). rewrite Hp. eexists; reflexivity. }
      lia.
  - destruct (phase s !! task) as [[| | | |]|] eqn:Hq; try discriminate Hstep.
    destruct (bool_decide (task ∈ sem_resolved (mutex (adapter s)))); [|discriminate Hstep].
    destruct (startTransaction_resume task (adapter s)) as [a' [e|tx]];
      injection Hstep as <-.
    + apply (Put task Failed); [reflexivity|]. intros ->. left.
      split; [congruence | right; reflexivity].
    + apply (Put task Open); [reflexivity|]. intros ->. left.
      split; [congruence | left; reflexivity].
  - destruct (phase s !! task) as [[| | | |]|] eqn:Hq; try discriminate Hstep;
      injection Hstep as <-; try (apply Same; reflexivity).
    apply (Put task Committed); [reflexivity|]. intros ->. right.
    split; [congruence | left; reflexivity].
  - destruct (phase s !! task) as [[| | | |]|] eqn:Hq; try discriminate Hstep;
      injection Hstep as <-; try (apply Same; reflexivity).
    apply (Put task RolledBack); [reflexivity|]. intros ->. right.
    split; [congruence | right; reflexivity].
  - injection Hstep as <-. apply Same. reflexivity.
  - injection Hstep as <-. apply Same. reflexivity.
  - injection Hstep as <-. apply Same. reflexivity.
Qed.

Lemma steps_failed_stays (evs : list (Event Arg ArgType)) :
  forall s s' (t : nat),
    SystemInv s -> steps evs s = Some s' ->
    phase s !! t = Some Failed -> phase s' !! t = Some Failed.
Proof.
  induction evs as [|ev evs IH]; intros s s' t I Hs Hp; simpl in Hs.
  - injection Hs as <-. exact Hp.
  - destruct (step ev s) as [s1|] eqn:E; [|discriminate Hs].
    destruct (step_phase ev s s1 t Failed I E Hp) as (p' & Hp' & Hcase).
    apply (IH s1 s' t (step_inv ev s s1 I E) Hs).
    destruct Hcase as [-> | [[C _] | [C _]]]; [exact Hp' | discriminate C | discriminate C].
Qed.

Lemma steps_open_onwards (evs : list (Event Arg ArgType)) :
  forall s s' (t : nat),
    SystemInv s -> steps evs s = Some s' ->
    phase s !! t = Some Open \/ phase s !! t = Some Committed \/ phase s !! t = Some RolledBack ->
    phase s' !! t = Some Open \/ phase s' !! t = Some Committed
    \/ phase s' !! t = Some RolledBack.
Proof.
  induction evs as [|ev evs IH]; intros s s' t I Hs Hp; simpl in Hs.
  - injection Hs as <-. exact Hp.
  - destruct (step ev s) as [s1|] eqn:E; [|discriminate Hs].
    apply (IH s1 s' t (step_inv ev s s1 I E) Hs).
    destruct Hp as [Hp | [Hp | Hp]];
      destruct (step_phase ev s s1 t _ I E Hp) as (p' & Hp' & Hcase); rewrite Hp';
      destruct Hcase as [-> | [[C Hc] | [C Hc]]]; try discriminate C; auto;
      destruct Hc as [-> | ->]; auto.
Qed.

Lemma open_is_unique s (t1 t2 : nat) :
  SystemInv s -> phase s !! t1 = Some Open -> phase s !! t2 = Some Open -> t1 = t2.
Proof.
  intros I H1 H2. apply (inv_single _ (inv_mutex s I)); apply (inv_open s I); assumption.
Qed.

(** C2.  In every state that calls in any order can lead to, at most one
    transaction is open, and an open transaction holds the lock.  A
    transaction that was open at some time, and is not the one open now,
    has been committed or rolled back by now: a second transaction opens
    only after the first has ended. *)
Theorem one_open_transaction_at_a_time :
  forall (d : DB) adapterOptions (evs1 evs2 : list (Event Arg ArgType)) s1 s,
    steps evs1 (newSystem d adapterOptions) = Some s1 ->
    steps evs2 s1 = Some s ->
    (forall t1 t2 : nat,
        phase s !! t1 = Some Open -> phase s !! t2 = Some Open -> t1 = t2)
    /\ (forall t : nat,
          phase s !! t = Some Open ->
          holds (mutex (adapter s)) t /\ isLocked (mutex (adapter s)) = true)
    /\ (forall t1 t2 : nat,
          phase s1 !! t1 = Some Open -> phase s !! t2 = Some Open -> t1 <> t2 ->
          phase s1 !! t2 <> Some Open
          /\ (phase s !! t1 = Some Committed \/ phase s !! t1 = Some RolledBack)).
Proof.
  intros d adapterOptions evs1 evs2 s1 s H1 H2.
  pose proof (reachable_inv d adapterOptions evs1 s1 H1) as I1.
  pose proof (steps_inv evs2 s1 s I1 H2) as I.
  split; [|split].
  - intros t1 t2. apply open_is_unique. exact I.
  - intros t Ht. pose proof (inv_open s I t Ht) as Hh. split; [exact Hh|].
    unfold isLocked. rewrite (holds_locked _ t (inv_mutex s I) Hh). reflexivity.
  - intros t1 t2 Ho1 Ho2 Hne. split.
    + intros Ho. apply Hne. apply (open_is_unique s1); assumption.
    + destruct (steps_open_onwards evs2 s1 s t1 I1 H2 (or_introl Ho1)) as [Ho | Hend];
        [|exact Hend].
      destruct (Hne (open_is_unique s t1 t2 I Ho Ho2)).
Qed.

(** C1, where the code falls short of it.  Once BEGIN has failed for a
    call, the lock that the call had acquired is held for good: whatever
    happens afterwards, the call still holds it, the mutex is locked, and
    no transaction is open or will be. *)
Theorem failed_begin_keeps_the_lock :
  forall (d : DB) adapterOptions (evs1 evs2 : list (Event Arg ArgType)) s1 s (task : nat),
    steps evs1 (newSystem d adapterOptions) = Some s1 ->
    phase s1 !! task = Some Failed ->
    steps evs2 s1 = Some s ->
    phase s !! task = Some Failed
    /\ holds (mutex (adapter s)) task
    /\ isLocked (mutex (adapter s)) = true
    /\ forall t : nat, phase s !! t <> Some Open.
Proof.
  intros d adapterOptions evs1 evs2 s1 s task H1 Hf H2.
  pose proof (reachable_inv d adapterOptions evs1 s1 H1) as I1.
  pose proof (steps_inv evs2 s1 s I1 H2) as I.
  pose proof (steps_failed_stays evs2 s1 s task I1 H2 Hf) as Hf'.
  pose proof (inv_failed s I task Hf') as Hh.
  split; [exact Hf'|]. split; [exact Hh|]. split.
  - unfold isLocked. rewrite (holds_locked _ task (inv_mutex s I) Hh). reflexivity.
  - intros t Ho. pose proof (inv_open s I t Ho) as Ht.
    pose proof (inv_single _ (inv_mutex s I) t task Ht Hh) as E. subst t. congruence.
Qed.

(** What does hold of C1: an open transaction gives the lock back at its
    first [commit] or [rollback], and any further [commit] or [rollback]
    on it leaves the mutex alone. *)
Lemma ended_transaction_releases_once :
  forall (d : DB) adapterOptions (evs : list (Event Arg ArgType)) s s' (task : nat) ev,
    steps evs (newSystem d adapterOptions) = Some s ->
    phase s !! task = Some Open ->
    ev = Commit task \/ ev = Rollback task ->
    step ev s = Some s' ->
    holds (mutex (adapter s)) task
    /\ ~ holds (mutex (adapter s')) task
    /\ mutex (adapter s') = releaser task (mutex (adapter s))
    /\ forall ev' s'',
         ev' = Commit task \/ ev' = Rollback task ->
         step ev' s' = Some s'' ->
         mutex (adapter s'') = mutex (adapter s').
Proof.
  intros d adapterOptions evs s s' task ev Hs Ho Hev Hstep.
  pose proof (reachable_inv d adapterOptions evs s Hs) as I.
  pose proof (step_inv ev s s' I Hstep) as I'.
  pose proof (inv_open s I task Ho) as Hh.
  assert (Em : mutex (adapter s') = releaser task (mutex (adapter s))).
  { destruct Hev as [-> | ->]; simpl in Hstep; rewrite Ho in Hstep;
      injection Hstep as <-; reflexivity. }
  assert (Hc : task ∈ sem_called (mutex (adapter s'))).
  { rewrite Em, (releaser_called _ task (inv_mutex s I) Hh).
    apply elem_of_union. left. apply elem_of_singleton. reflexivity. }
  split; [exact Hh|]. split; [intros [_ Hn]; exact (Hn Hc)|]. split; [exact Em|].
  intros ev' s'' Hev' Hstep'.
  assert (Em' : mutex (adapter s'') = releaser task (mutex (adapter s'))).
  { destruct Hev' as [-> | ->]; simpl in Hstep';
      destruct (phase s' !! task) as [[| | | |]|]; try discriminate Hstep';
      injection Hstep' as <-; reflexivity. }
  rewrite Em'. apply releaser_called_again. exact Hc.
Qed.

End SystemProperties.

(** ** The adapter on the small engine *)

Lemma unsupported_level_witness :
  startTransaction (Some "SNAPSHOT") (newAdapter (Stmt := Mini.Stmt) Mini.empty None)
  = (newAdapter Mini.empty None,
     inl (DriverAdapterError (InvalidIsolationLevel "SNAPSHOT"))).
Proof.
  refine (proj1 (unsupported_level_rejected_before_lock_and_sql
                   SNAPSHOT (newAdapter Mini.empty None) _)).
  discriminate.
Defined.

(** On a fresh adapter SERIALIZABLE opens a transaction, as no level does. *)
Example serializable_opens :
  snd (startTransaction (Some "SERIALIZABLE") (newAdapter (Stmt := Mini.Stmt) Mini.empty None))
    = inr (Opened {| options := {| usePhantomQuery := false |};
                     tx_adapterOptions := None;
                     unlockParent := 0 |})
  /\ snd (startTransaction None (newAdapter (Stmt := Mini.Stmt) Mini.empty None))
    = inr (Opened {| options := {| usePhantomQuery := false |};
                     tx_adapterOptions := None;
                     unlockParent := 0 |}).
Proof. split; vm_compute; reflexivity. Qed.


Lemma queryRaw_of_a_pure_write_witness :
  exists c',
    queryRaw None (Mini.query "DELETE FROM t") (Mini.table 5)
    = (c', inr {| rs_columnNames := []; rs_columnTypes := []; rs_rows := [] |})
    /\ conn c' = {| Mini.inTransaction := false; Mini.rowsOfT := 0 |}.
Proof.
  eexists. split.
  - apply (queryRaw_of_a_pure_write_is_empty None (Mini.query "DELETE FROM t")
             (Mini.table 5) []
             {| Mini.inTransaction := false; Mini.rowsOfT := 5 |}
             {| Mini.inTransaction := false; Mini.rowsOfT := 0 |}
             {| Mini.sourceSQL := "DELETE FROM t"; Mini.readBigInts := false;
                Mini.returnArrays := false |}
             {| res_changes := CountNumber 5; res_lastInsertRowid := CountNumber 0 |});
      reflexivity.
  - reflexivity.
Defined.

Lemma executeRaw_returns_the_count_witness :
  snd (executeRaw None (Mini.query "DELETE FROM t") (Mini.table 5)) = inr 5.
Proof.
  refine (f_equal snd (proj1 (executeRaw_returns_the_count_unnarrowed None
             (Mini.query "DELETE FROM t") (Mini.table 5) []
             {| Mini.inTransaction := false; Mini.rowsOfT := 5 |}
             {| Mini.inTransaction := false; Mini.rowsOfT := 0 |}
             {| Mini.sourceSQL := "DELETE FROM t"; Mini.readBigInts := false;
                Mini.returnArrays := false |}
             {| res_changes := CountNumber 5; res_lastInsertRowid := CountNumber 0 |}
             _ _ _))); reflexivity.
Defined.

(** C6 as it is stated, refuted: a DELETE that empties a table of 2^32
    rows makes [executeRaw] answer 4294967296, which is above 2^32 - 1. *)
Lemma executeRaw_count_beyond_32_bits :
  snd (executeRaw None (Mini.query "DELETE FROM t") (Mini.table (2 ^ 32)))
    = inr 4294967296
  /\ ~ (0 <= 4294967296 <= 2 ^ 32 - 1).
Proof.
  split.
  - reflexivity.
  - intros [_ H]. revert H. apply Z.lt_nge. reflexivity.
Qed.


(** A big integer beyond 2^53, bound and read back. *)
Example big_integer_comes_back :
  mapArg (Converter.VBigInt (Json := string) (2 ^ 53 + 1)) (Some CtInt64) None
    = inr (JBigInt 9007199254740993)
  /\ mapRow [JBigInt 9007199254740993] [CtInt64]
     = inr [Converter.VBigInt (Json := string) 9007199254740993].
Proof. split; reflexivity. Qed.


Lemma one_open_transaction_witness :
  Mini.after Mini.oneByOne_before Mini.start
    = {| adapter := adapter (Mini.after Mini.oneByOne_before Mini.start);
         phase := <[1%nat := Acquiring]> (<[0%nat := Open]> ∅) |}
  /\ phase (Mini.after Mini.oneByOne_after (Mini.after Mini.oneByOne_before Mini.start))
       !! 1%nat = Some Open
  /\ (phase (Mini.after Mini.oneByOne_after (Mini.after Mini.oneByOne_before Mini.start))
        !! 0%nat = Some Committed
      \/ phase (Mini.after Mini.oneByOne_after (Mini.after Mini.oneByOne_before Mini.start))
           !! 0%nat = Some RolledBack).
Proof.
  split; [vm_compute; reflexivity|]. split; [vm_compute; reflexivity|].
  refine (proj2 (proj2 (proj2 (one_open_transaction_at_a_time Mini.empty None
            Mini.oneByOne_before Mini.oneByOne_after
            (Mini.after Mini.oneByOne_before Mini.start)
            (Mini.after Mini.oneByOne_after (Mini.after Mini.oneByOne_before Mini.start))
            _ _)) 0%nat 1%nat _ _ _)).
  - vm_compute. reflexivity.
  - vm_compute. reflexivity.
  - vm_compute. reflexivity.
  - vm_compute. reflexivity.
  - discriminate.
Defined.

Lemma failed_begin_witness :
  phase (Mini.after Mini.beginFails_after (Mini.after Mini.beginFails_before Mini.start))
    = <[1%nat := Acquiring]> (<[0%nat := Failed]> ∅)
  /\ conn (client (adapter
        (Mini.after Mini.beginFails_after (Mini.after Mini.beginFails_before Mini.start))))
     = {| Mini.inTransaction := false; Mini.rowsOfT := 0 |}
  /\ isLocked (mutex (adapter
        (Mini.after Mini.beginFails_after (Mini.after Mini.beginFails_before Mini.start))))
     = true.
Proof.
  split; [vm_compute; reflexivity|]. split; [vm_compute; reflexivity|].
  refine (proj1 (proj2 (proj2 (failed_begin_keeps_the_lock Mini.empty None
            Mini.beginFails_before Mini.beginFails_after
            (Mini.after Mini.beginFails_before Mini.start)
            (Mini.after Mini.beginFails_after (Mini.after Mini.beginFails_before Mini.start))
            0%nat _ _ _)))).
  - vm_compute. reflexivity.
  - vm_compute. reflexivity.
  - vm_compute. reflexivity.
Defined.

(** The same run, call by call: with a transaction active on the
    connection, [startTransaction] takes the lock, fails at BEGIN and
    throws the converted error; the releaser has not been called and is
    lost with the frame of the call.  The next [startTransaction] is left
    waiting, though no transaction is open. *)
Example begin_fails_and_the_lock_stays :
  let a0 := fst (executeScript "BEGIN" (newAdapter (Stmt := Mini.Stmt) Mini.empty None)) in
  let a1 := fst (startTransaction None a0) in
  let a2 := fst (executeScript "ROLLBACK" a1) in
  snd (startTransaction None a0)
    = inl (DriverAdapterError
             (RawDatabaseError (Some "ERR_SQLITE_ERROR")
                "cannot start a transaction within a transaction"))
  /\ isLocked (mutex a1) = true
  /\ sem_called (mutex a1) = ∅
  /\ snd (startTransaction None a2) = inr (Waiting 1).
Proof. vm_compute. repeat split; reflexivity. Qed.

(** * Further properties *)

(** ** What a statement sends to the engine *)

Section StatementCalls.
Context {DB Stmt Arg ArgType Cell : Type}.
Context `{!DatabaseSync DB Stmt, !Conversion Arg ArgType Cell, !Errors}.

Implicit Types (c : Client DB Stmt) (query : SqlQuery Arg ArgType).
Implicit Types (adapterOptions : option PrismaNodeSQLiteOptions).

Lemma executeIO_cases adapterOptions query c :
  match mapArgs adapterOptions query with
  | inl e => executeIO adapterOptions query c
             = (c, inl (DriverAdapterError (convertDriverError e)))
  | inr bound =>
      match db_prepare (sql query) (conn c) with
      | (d, inl e) =>
          executeIO adapterOptions query c
          = ({| conn := d; issued := issued c ++ [CallPrepare (sql query)] |},
             inl (DriverAdapterError (convertDriverError e)))
      | (d, inr stmt) =>
          match stmt_run stmt bound d with
          | (d', inl e) =>
              executeIO adapterOptions query c
              = ({| conn := d';
                    issued := issued c ++ [CallPrepare (sql query); CallRun stmt bound] |},
                 inl (DriverAdapterError (convertDriverError e)))
          | (d', inr result) =>
              executeIO adapterOptions query c
              = ({| conn := d';
                    issued := issued c ++ [CallPrepare (sql query); CallRun stmt bound] |},
                 inr {| changes := Number (res_changes result);
                        lastInsertRowid := res_lastInsertRowid result |})
          end
      end
  end.
Proof.
  unfold executeIO, try_catch, bind, pure_result, prepare, run, call, ret, onError, throw.
  destruct (mapArgs adapterOptions query) as [e|bound]; [reflexivity|]. simpl.
  destruct (db_prepare (sql query) (conn c)) as [d [e|stmt]]; [reflexivity|]. simpl.
  destruct (stmt_run stmt bound d) as [d' [e|result]]; simpl;
    rewrite <- app_assoc; reflexivity.
Qed.

Lemma performIO_cases adapterOptions query c :
  match mapArgs adapterOptions query with
  | inl e => performIO adapterOptions query c
             = (c, inl (DriverAdapterError (convertDriverError e)))
  | inr bound =>
      match db_prepare (sql query) (conn c) with
      | (d, inl e) =>
          performIO adapterOptions query c
          = ({| conn := d; issued := issued c ++ [CallPrepare (sql query)] |},
             inl (DriverAdapterError (convertDriverError e)))
      | (d, inr stmt) =>
          match stmt_columns (arranged stmt) with
          | [] =>
              match stmt_run (arranged stmt) bound d with
              | (d', inl e) =>
                  performIO adapterOptions query c
                  = ({| conn := d';
                        issued := issued c ++ [CallPrepare (sql query);
                                               CallRun (arranged stmt) bound] |},
                     inl (DriverAdapterError (convertDriverError e)))
              | (d', inr _) =>
                  performIO adapterOptions query c
                  = ({| conn := d';
                        issued := issued c ++ [CallPrepare (sql query);
                                               CallRun (arranged stmt) bound] |},
                     inr {| declaredTypes := []; columnNames := []; values := [] |})
              end
          | column :: columns =>
              match stmt_all (arranged stmt) bound d with
              | (d', inl e) =>
                  performIO adapterOptions query c
                  = ({| conn := d';
                        issued := issued c ++ [CallPrepare (sql query);
                                               CallAll (arranged stmt) bound] |},
                     inl (DriverAdapterError (convertDriverError e)))
              | (d', inr rows) =>
                  performIO adapterOptions query c
                  = ({| conn := d';
                        issued := issued c ++ [CallPrepare (sql query);
                                               CallAll (arranged stmt) bound] |},
                     inr {| declaredTypes := map col_type (column :: columns);
                            columnNames := map col_name (column :: columns);
                            values := rows |})
              end
          end
      end
  end.
Proof.
  unfold performIO, try_catch, bind, pure_result, prepare, run, all, call, ret,
    onError, throw.
  destruct (mapArgs adapterOptions query) as [e|bound]; [reflexivity|]. simpl.
  destruct (db_prepare (sql query) (conn c)) as [d [e|stmt]]; [reflexivity|]. simpl.
  fold (arranged stmt).
  destruct (stmt_columns (arranged stmt)) as [|column columns]; simpl.
  - destruct (stmt_run (arranged stmt) bound d) as [d' [e|result]]; simpl;
      rewrite <- app_assoc; reflexivity.
  - destruct (stmt_all (arranged stmt) bound d) as [d' [e|rows]]; simpl;
      rewrite <- app_assoc; reflexivity.
Qed.

Lemma executeRaw_as_executeIO adapterOptions query c :
  executeRaw adapterOptions query c
  = match executeIO adapterOptions query c with
    | (c', inl e) => (c', inl e)
    | (c', inr meta) => (c', inr (changes meta))
    end.
Proof. unfold executeRaw, bind, ret. destruct (executeIO adapterOptions query c) as [c' [e|m]]; reflexivity. Qed.

Lemma queryRaw_as_performIO adapterOptions query c :
  queryRaw adapterOptions query c
  = match performIO adapterOptions query c with
    | (c', inl e) => (c', inl e)
    | (c', inr io) =>
        match mapRows (values io) (getColumnTypes (declaredTypes io) (values io)) with
        | inl e => (c', inl e)
        | inr mapped =>
            (c', inr {| rs_columnNames := columnNames io;
                        rs_columnTypes := getColumnTypes (declaredTypes io) (values io);
                        rs_rows := mapped |})
        end
    end.
Proof.
  unfold queryRaw, bind, pure_result, ret.
  destruct (performIO adapterOptions query c) as [c' [e|io]]; [reflexivity|].
  destruct (mapRows _ _); reflexivity.
Qed.

Lemma mapArgsFrom_pointwise adapterOptions (types : list ArgType) (rest : list Arg) :
  forall (i : nat) (bound : list JsValue),
    mapArgsFrom i rest types adapterOptions = inr bound ->
    length bound = length rest
    /\ forall (k : nat) (arg : Arg),
         rest !! k = Some arg ->
         exists v, bound !! k = Some v
                   /\ mapArg arg (types !! (i + k)%nat) adapterOptions = inr v.
Proof.
  induction rest as [|a rest IH]; intros i bound Hm; simpl in Hm.
  - injection Hm as <-. split; [reflexivity|]. intros k arg Hk. discriminate Hk.
  - destruct (mapArg a (types !! i) adapterOptions) as [e|v] eqn:Ea; [discriminate Hm|].
    destruct (mapArgsFrom (S i) rest types adapterOptions) as [e|vs] eqn:Er;
      [discriminate Hm|].
    injection Hm as <-. destruct (IH (S i) vs Er) as [Hlen Hpt].
    split; [simpl; f_equal; exact Hlen|].
    intros [|k] arg Hk; simpl in Hk.
    + injection Hk as <-. exists v. rewrite Nat.add_0_r. split; [reflexivity | exact Ea].
    + destruct (Hpt k arg Hk) as (w & Hw & Hc). exists w.
      rewrite <- Nat.add_succ_comm. split; [exact Hw | exact Hc].
Qed.

Lemma mapArgs_pointwise adapterOptions query (bound : list JsValue) :
  mapArgs adapterOptions query = inr bound ->
  length bound = length (args query)
  /\ forall (k : nat) (arg : Arg),
       args query !! k = Some arg ->
       exists v, bound !! k = Some v
                 /\ mapArg arg (argTypes query !! k) adapterOptions = inr v.
Proof. intros Hm. apply (mapArgsFrom_pointwise _ _ _ 0%nat bound Hm). Qed.




(** X4.  The values that [executeRaw] binds to the statement are the
    converted arguments of the query, one for each argument and in their
    order, the argument at index [k] converted with the argument type at
    index [k], or with none when the list of types is shorter. *)
Theorem executeRaw_binds_the_converted_arguments :
  forall adapterOptions query c c' (n : Z),
    executeRaw adapterOptions query c = (c', inr n) ->
    exists (stmt : Stmt) (bound : list JsValue),
      issued c' = issued c ++ [CallPrepare (sql query); CallRun stmt bound]
      /\ length bound = length (args query)
      /\ forall (k : nat) (arg : Arg),
           args query !! k = Some arg ->
           exists v, bound !! k = Some v
                     /\ mapArg arg (argTypes query !! k) adapterOptions = inr v.
Proof.
  intros adapterOptions query c c' n H0. rewrite executeRaw_as_executeIO in H0.
  pose proof (executeIO_cases adapterOptions query c) as Hc.
  destruct (mapArgs adapterOptions query) as [e1|bound] eqn:Hm.
  { rewrite Hc in H0. discriminate H0. }
  destruct (db_prepare (sql query) (conn c)) as [d [e1|stmt]].
  { rewrite Hc in H0. discriminate H0. }
  destruct (stmt_run stmt bound d) as [d' [e1|result]]; rewrite Hc in H0;
    [discriminate H0|].
  injection H0 as <- _. exists stmt, bound. split; [reflexivity|].
  apply mapArgs_pointwise. exact Hm.
Qed.

(** X5.  A result set of [queryRaw] names the columns of the prepared
    statement, set to read big integers, in their order.  When the
    statement has columns it has been executed with [all], on the
    converted arguments, and the result set has one row for each row that
    the engine returned; when it has none it has been executed with [run]
    and the result set has no rows. *)
Theorem queryRaw_result_follows_the_statement :
  forall adapterOptions query c c' (rs : SqlResultSet Cell),
    queryRaw adapterOptions query c = (c', inr rs) ->
    exists (d : DB) (stmt : Stmt) (bound : list JsValue),
      db_prepare (sql query) (conn c) = (d, inr stmt)
      /\ mapArgs adapterOptions query = inr bound
      /\ rs_columnNames rs = map col_name (stmt_columns (arranged stmt))
      /\ ((stmt_columns (arranged stmt) = []
           /\ rs_rows rs = []
           /\ exists result, stmt_run (arranged stmt) bound d = (conn c', inr result))
          \/ (stmt_columns (arranged stmt) <> []
              /\ exists rows, stmt_all (arranged stmt) bound d = (conn c', inr rows)
                              /\ length (rs_rows rs) = length rows)).
Proof.
  intros adapterOptions query c c' rs H0. rewrite queryRaw_as_performIO in H0.
  pose proof (performIO_cases adapterOptions query c) as Hc.
  destruct (mapArgs adapterOptions query) as [e1|bound].
  { rewrite Hc in H0. discriminate H0. }
  destruct (db_prepare (sql query) (conn c)) as [d [e1|stmt]].
  { rewrite Hc in H0. discriminate H0. }
  exists d, stmt, bound. split; [reflexivity|]. split; [reflexivity|].
  destruct (stmt_columns (arranged stmt)) as [|column columns].
  - destruct (stmt_run (arranged stmt) bound d) as [d' [e1|result]] eqn:Hr;
      rewrite Hc in H0; [discriminate H0|].
    simpl in H0. injection H0 as <- <-. simpl.
    split; [reflexivity|]. left. split; [reflexivity|]. split; [reflexivity|].
    exists result. reflexivity.
  - destruct (stmt_all (arranged stmt) bound d) as [d' [e1|rows]] eqn:Ha;
      rewrite Hc in H0; [discriminate H0|].
    simpl in H0.
    destruct (mapRows rows _) as [e2|mapped] eqn:Em; [discriminate H0|].
    injection H0 as <- <-. simpl.
    split; [reflexivity|]. right. split; [discriminate|].
    exists rows. split; [reflexivity|]. apply (mapRows_length _ _ _ Em).
Qed.

End StatementCalls.

(** ** Waiting for the lock *)

Section WaitingProperties.
Context {DB Stmt Arg ArgType Cell : Type}.
Context `{!DatabaseSync DB Stmt, !Conversion Arg ArgType Cell, !Errors}.

Implicit Types (a : Adapter DB Stmt) (s : System DB Stmt) (ev : Event Arg ArgType).

Lemma acquire_free (m : Mutex) :
  sem_queue m = [] -> sem_value m = 1 ->
  fst (acquire m)
  = {| sem_value := 0; sem_queue := [];
       sem_resolved := {[sem_tasks m]} ∪ sem_resolved m;
       sem_called := sem_called m; sem_tasks := S (sem_tasks m) |}.
Proof. intros Eq Ev. unfold acquire. simpl. rewrite Eq, Ev. reflexivity. Qed.

Lemma acquire_busy (m : Mutex) :
  sem_queue m <> [] \/ sem_value m <= 0 ->
  fst (acquire m)
  = {| sem_value := sem_value m; sem_queue := sem_queue m ++ [sem_tasks m];
       sem_resolved := sem_resolved m;
       sem_called := sem_called m; sem_tasks := S (sem_tasks m) |}.
Proof.
  intros H0. unfold acquire. simpl.
  destruct (sem_queue m) as [|h q] eqn:Eq; [|reflexivity].
  destruct H0 as [H0 | H0]; [congruence|].
  destruct (1 <=? sem_value m) eqn:E; [apply Z.leb_le in E; lia | reflexivity].
Qed.

Lemma sorted_snoc (q : list nat) (t0 : nat) :
  StronglySorted lt q -> (forall t, t ∈ q -> (t < t0)%nat) ->
  StronglySorted lt (q ++ [t0]).
Proof.
  induction 1 as [|h q Hq IH Hh]; intros Hall; simpl.
  - constructor; constructor.
  - constructor.
    + apply IH. intros t Ht. apply Hall. right. exact Ht.
    + apply Forall_app. split; [exact Hh|]. constructor; [|constructor].
      apply Hall. left.
Qed.

(** What an event does to the mutex and to the phases. *)
Lemma step_cases ev s s' :
  SystemInv s -> step ev s = Some s' ->
  (mutex (adapter s') = mutex (adapter s) /\ phase s' = phase s)
  \/ (mutex (adapter s') = fst (acquire (mutex (adapter s)))
      /\ phase s' = <[sem_tasks (mutex (adapter s)) := Acquiring]> (phase s))
  \/ (exists (t : nat) (p : Phase),
        phase s !! t = Some Acquiring
        /\ t ∈ sem_resolved (mutex (adapter s))
        /\ mutex (adapter s') = mutex (adapter s)
        /\ phase s' = <[t := p]> (phase s)
        /\ (p = Open \/ p = Failed))
  \/ (exists (t : nat) (p : Phase),
        phase s !! t = Some Open
        /\ mutex (adapter s') = releaser t (mutex (adapter s))
        /\ phase s' = <[t := p]> (phase s)
        /\ (p = Committed \/ p = RolledBack)).
Proof.
  intros I Hstep.
  assert (Again : forall task,
            phase s !! task = Some Committed \/ phase s !! task = Some RolledBack ->
            releaser task (mutex (adapter s)) = mutex (adapter s)).
  { intros task Hp. apply releaser_called_again. apply (inv_ended s I). exact Hp. }
  destruct ev as [lvl | task | task | task | query | query | script]; simpl in Hstep.
  - destruct (startTransaction_enter_cases lvl (adapter s)) as [[e E] | E];
      rewrite E in Hstep; injection Hstep as <-.
    + left. split; reflexivity.
    + right; left. simpl. rewrite acquire_task. split; reflexivity.
  - destruct (phase s !! task) as [[| | | |]|] eqn:Hp; try discriminate Hstep.
    destruct (bool_decide (task ∈ sem_resolved (mutex (adapter s)))) eqn:Hr;
      [|discriminate Hstep].
    apply bool_decide_eq_true in Hr.
    pose proof (startTransaction_resume_mutex task (adapter s)) as Em.
    right; right; left.
    destruct (startTransaction_resume task (adapter s)) as [a' [e|tx]];
      injection Hstep as <-; simpl in Em.
    + exists task, Failed. repeat split; auto.
    + exists task, Open. repeat split; auto.
  - destruct (phase s !! task) as [[| | | |]|] eqn:Hp; try discriminate Hstep;
      injection Hstep as <-.
    + right; right; right. exists task, Committed. repeat split; auto.
    + left. simpl. split; [apply Again; auto | reflexivity].
    + left. simpl. split; [apply Again; auto | reflexivity].
  - destruct (phase s !! task) as [[| | | |]|] eqn:Hp; try discriminate Hstep;
      injection Hstep as <-.
    + right; right; right. exists task, RolledBack. repeat split; auto.
    + left. simpl. split; [apply Again; auto | reflexivity].
    + left. simpl. split; [apply Again; auto | reflexivity].
  - injection Hstep as <-. left. split; [apply onClient_mutex | reflexivity].
  - injection Hstep as <-. left. split; [apply onClient_mutex | reflexivity].
  - injection Hstep as <-. left. split; [apply onClient_mutex | reflexivity].
Qed.

Lemma newSystem_waiting_inv (d : DB) adapterOptions :
  WaitingInv (newSystem (Stmt := Stmt) d adapterOptions).
Proof.
  constructor; simpl.
  - intros H0. congruence.
  - intros H0. discriminate H0.
  - intros t Ht. inversion Ht.
  - intros t Ht. apply not_elem_of_empty in Ht. destruct Ht.
  - constructor.
Qed.

Lemma step_waiting_inv ev s s' :
  SystemInv s -> WaitingInv s -> step ev s = Some s' -> WaitingInv s'.
Proof.
  intros I W Hstep. pose proof (inv_mutex s I) as IM.
  destruct W as [W1 W2 W3 W4 W5].
  destruct (step_cases ev s s' I Hstep)
    as [[Em Ep] | [[Em Ep] | [(t & p & Hp & Hr & Em & Ep & Hcase)
                             | (t & p & Hp & Em & Ep & Hcase)]]].
  - constructor; rewrite ?Em, ?Ep; assumption.
  - set (m := mutex (adapter s)) in *.
    assert (Hfresh : forall t, t ∈ sem_resolved m \/ t ∈ sem_queue m -> t <> sem_tasks m).
    { intros t Ht E. pose proof (inv_numbered m IM t Ht). lia. }
    destruct (sem_queue m) as [|h q] eqn:Eq.
    + destruct (inv_value m IM) as [Ev | Ev].
      * assert (Ea : fst (acquire m)
                     = {| sem_value := sem_value m; sem_queue := sem_queue m ++ [sem_tasks m];
                          sem_resolved := sem_resolved m; sem_called := sem_called m;
                          sem_tasks := S (sem_tasks m) |})
          by (apply acquire_busy; right; lia).
        rewrite Eq in Ea. simpl in Ea.
        constructor; rewrite Em, ?Ep, Ea; simpl.
        -- intros _. exact Ev.
        -- intros _. destruct (W2 Ev) as [t Ht]. exists t. exact Ht.
        -- intros t Ht. apply list_elem_of_singleton in Ht. subst t.
           apply lookup_insert_eq.
        -- intros t Ht. rewrite lookup_insert_ne; [apply W4; exact Ht|].
           intros E. apply (Hfresh t (or_introl Ht)). congruence.
        -- constructor; constructor.
      * assert (Ea : fst (acquire m)
                     = {| sem_value := 0; sem_queue := [];
                          sem_resolved := {[sem_tasks m]} ∪ sem_resolved m;
                          sem_called := sem_called m; sem_tasks := S (sem_tasks m) |})
          by (apply acquire_free; assumption).
        constructor; rewrite Em, ?Ep, Ea; simpl.
        -- intros H0. congruence.
        -- intros _. exists (sem_tasks m). split; simpl.
           ++ apply elem_of_union. left. apply elem_of_singleton. reflexivity.
           ++ intros Hc. apply (inv_called m IM) in Hc.
              apply (Hfresh _ (or_introl Hc)). reflexivity.
        -- intros t Ht. inversion Ht.
        -- intros t Ht. apply elem_of_union in Ht as [Ht | Ht].
           ++ apply elem_of_singleton in Ht. subst t. rewrite lookup_insert_eq.
              eexists; reflexivity.
           ++ rewrite lookup_insert_ne; [apply W4; exact Ht|].
              intros E. apply (Hfresh t (or_introl Ht)). congruence.
        -- constructor.
    + assert (Ev : sem_value m = 0) by (apply W1; discriminate).
      assert (Ea : fst (acquire m)
                   = {| sem_value := sem_value m; sem_queue := sem_queue m ++ [sem_tasks m];
                        sem_resolved := sem_resolved m; sem_called := sem_called m;
                        sem_tasks := S (sem_tasks m) |})
        by (apply acquire_busy; left; rewrite Eq; discriminate).
      rewrite Eq in Ea.
      constructor; rewrite Em, ?Ep, Ea; simpl.
      * intros _. exact Ev.
      * intros _. destruct (W2 Ev) as [t Ht]. exists t. exact Ht.
      * intros t Ht. change (t ∈ (h :: q) ++ [sem_tasks m]) in Ht.
        apply elem_of_app in Ht as [Ht | Ht].
        -- rewrite lookup_insert_ne; [apply W3; exact Ht|].
           intros E. apply (Hfresh t (or_intror Ht)). congruence.
        -- apply list_elem_of_singleton in Ht. subst t. apply lookup_insert_eq.
      * intros t Ht. rewrite lookup_insert_ne; [apply W4; exact Ht|].
        intros E. apply (Hfresh t (or_introl Ht)). congruence.
      * change (StronglySorted lt ((h :: q) ++ [sem_tasks m])).
        apply sorted_snoc; [exact W5|].
        intros t Ht. apply (inv_numbered m IM). right. rewrite Eq. exact Ht.
  - constructor; rewrite ?Em, ?Ep; try assumption.
    + intros t' Ht'. destruct (decide (t = t')) as [<- | Hne].
      * destruct (inv_queued _ IM t Ht' Hr).
      * rewrite lookup_insert_ne by exact Hne. apply W3. exact Ht'.
    + intros t' Ht'. destruct (decide (t = t')) as [<- | Hne].
      * rewrite lookup_insert_eq. eexists; reflexivity.
      * rewrite lookup_insert_ne by exact Hne. apply W4. exact Ht'.
  - pose proof (inv_open s I t Hp) as Hh.
    pose proof (releaser_of_holder _ t IM Hh) as Er.
    set (m := mutex (adapter s)) in *.
    destruct (sem_queue m) as [|h q] eqn:Eq.
    + constructor; rewrite Em, ?Ep, Er; simpl.
      * intros H0. congruence.
      * intros H0. discriminate H0.
      * intros t' Ht'. inversion Ht'.
      * intros t' Ht'. destruct (decide (t = t')) as [<- | Hne].
        -- rewrite lookup_insert_eq. eexists; reflexivity.
        -- rewrite lookup_insert_ne by exact Hne. apply W4. exact Ht'.
      * constructor.
    + assert (Hh' : h ∈ sem_queue m) by (rewrite Eq; left).
      assert (Hhr : h ∉ sem_resolved m) by (apply (inv_queued m IM); exact Hh').
      constructor; rewrite Em, ?Ep, Er; simpl.
      * intros _. reflexivity.
      * intros _. exists h. split; simpl.
        -- apply elem_of_union. left. apply elem_of_singleton. reflexivity.
        -- intros Hc. apply elem_of_union in Hc as [Hc | Hc].
           ++ apply elem_of_singleton in Hc. subst h. destruct Hh as [Hr _].
              exact (Hhr Hr).
           ++ apply (inv_called m IM) in Hc. exact (Hhr Hc).
      * intros t' Ht'.
        assert (Hq : t' ∈ sem_queue m) by (rewrite Eq; right; exact Ht').
        pose proof (W3 t' ltac:(rewrite <- Eq; exact Hq)) as Ha.
        destruct (decide (t = t')) as [<- | Hne]; [congruence|].
        rewrite lookup_insert_ne by exact Hne. exact Ha.
      * intros t' Ht'. destruct (decide (t = t')) as [<- | Hne].
        -- rewrite lookup_insert_eq. eexists; reflexivity.
        -- rewrite lookup_insert_ne by exact Hne.
           apply elem_of_union in Ht' as [Ht' | Ht'].
           ++ apply elem_of_singleton in Ht'. subst t'.
              rewrite (W3 h ltac:(left)). eexists; reflexivity.
           ++ apply W4. exact Ht'.
      * apply StronglySorted_inv in W5 as [W5 _]. exact W5.
Qed.

Lemma steps_waiting_inv (evs : list (Event Arg ArgType)) :
  forall s s', SystemInv s -> WaitingInv s -> steps evs s = Some s' -> WaitingInv s'.
Proof.
  induction evs as [|ev evs IH]; intros s s' I W Hs; simpl in Hs.
  - injection Hs as <-. exact W.
  - destruct (step ev s) as [s1|] eqn:E; [|discriminate Hs].
    apply (IH s1 s'); [apply (step_inv ev s s1 I E)
                      | apply (step_waiting_inv ev s s1 I W E) | exact Hs].
Qed.

Lemma reachable_waiting_inv (d : DB) adapterOptions (evs : list (Event Arg ArgType)) s :
  steps evs (newSystem d adapterOptions) = Some s -> WaitingInv s.
Proof.
  apply steps_waiting_inv; [apply newSystem_inv | apply newSystem_waiting_inv].
Qed.

End WaitingProperties.

(** ** Who gets the lock, and when *)

Section LockProperties.
Context {DB Stmt Arg ArgType Cell : Type}.
Context `{!DatabaseSync DB Stmt, !Conversion Arg ArgType Cell, !Errors}.

Implicit Types (a : Adapter DB Stmt) (s : System DB Stmt) (ev : Event Arg ArgType).

Lemma holder_phase s (t : nat) :
  SystemInv s -> WaitingInv s -> holds (mutex (adapter s)) t ->
  phase s !! t = Some Acquiring \/ phase s !! t = Some Open \/ phase s !! t = Some Failed.
Proof.
  intros I W [Hr Hc]. destruct (inv_resolved_known s W t Hr) as [p Hp].
  destruct p; auto.
  - destruct Hc. apply (inv_ended s I). left. exact Hp.
  - destruct Hc. apply (inv_ended s I). right. exact Hp.
Qed.

Lemma resume_of_resolved s (t : nat) :
  phase s !! t = Some Acquiring -> t ∈ sem_resolved (mutex (adapter s)) ->
  is_Some (step (Arg := Arg) (ArgType := ArgType) (Resume t) s).
Proof.
  intros Hp Hr. simpl. rewrite Hp. rewrite bool_decide_eq_true_2 by exact Hr.
  destruct (startTransaction_resume t (adapter s)) as [a' [e|tx]]; eexists; reflexivity.
Qed.

(** X6.  A call waits only while another call holds the lock.  Whenever
    some call is queued the mutex is locked and is held by a call that is
    not queued: one that has acquired the lock and not yet run its BEGIN,
    an open transaction, or a call whose BEGIN failed.  Every queued call
    is still acquiring and cannot go on. *)
Theorem a_call_waits_only_while_the_lock_is_held :
  forall (d : DB) adapterOptions (evs : list (Event Arg ArgType)) s,
    steps evs (newSystem d adapterOptions) = Some s ->
    sem_queue (mutex (adapter s)) <> [] ->
    isLocked (mutex (adapter s)) = true
    /\ (exists t : nat,
          holds (mutex (adapter s)) t
          /\ (t ∉ sem_queue (mutex (adapter s)))
          /\ (phase s !! t = Some Acquiring \/ phase s !! t = Some Open
              \/ phase s !! t = Some Failed))
    /\ (forall t : nat,
          t ∈ sem_queue (mutex (adapter s)) ->
          phase s !! t = Some Acquiring /\ step (Resume t) s = None).
Proof.
  intros d adapterOptions evs s Hs Hq.
  pose proof (reachable_inv d adapterOptions evs s Hs) as I.
  pose proof (reachable_waiting_inv d adapterOptions evs s Hs) as W.
  pose proof (inv_waiting_locked s W Hq) as Ev.
  split; [unfold isLocked; rewrite Ev; reflexivity|]. split.
  - destruct (inv_locked_held s W Ev) as [t Ht]. exists t.
    split; [exact Ht|]. split.
    + intros Hin. destruct Ht as [Hr _].
      exact (inv_queued _ (inv_mutex s I) t Hin Hr).
    + apply holder_phase; assumption.
  - intros t Ht. pose proof (inv_queue_acquiring s W t Ht) as Hp.
    split; [exact Hp|]. simpl. rewrite Hp.
    rewrite bool_decide_eq_false_2; [reflexivity|].
    apply (inv_queued _ (inv_mutex s I)). exact Ht.
Qed.

(** X7.  When an open transaction is committed or rolled back, the lock
    goes to the caller that has waited longest: the head of the queue now
    holds the lock and can go on to its BEGIN, the others stay queued in
    their order, and all of them called after it.  With nobody waiting
    the mutex is unlocked and nobody holds it. *)
Theorem the_lock_goes_to_the_first_waiting_caller :
  forall (d : DB) adapterOptions (evs : list (Event Arg ArgType)) s s' (task : nat) ev,
    steps evs (newSystem d adapterOptions) = Some s ->
    phase s !! task = Some Open ->
    ev = Commit task \/ ev = Rollback task ->
    step ev s = Some s' ->
    match sem_queue (mutex (adapter s)) with
    | [] =>
        isLocked (mutex (adapter s')) = false
        /\ sem_queue (mutex (adapter s')) = []
        /\ forall t : nat, ~ holds (mutex (adapter s')) t
    | next :: others =>
        holds (mutex (adapter s')) next
        /\ sem_queue (mutex (adapter s')) = others
        /\ phase s' !! next = Some Acquiring
        /\ is_Some (step (Arg := Arg) (ArgType := ArgType) (Resume next) s')
        /\ forall t : nat, t ∈ others -> (next < t)%nat
    end.
Proof.
  intros d adapterOptions evs s s' task ev Hs Ho Hev Hstep.
  pose proof (reachable_inv d adapterOptions evs s Hs) as I.
  pose proof (reachable_waiting_inv d adapterOptions evs s Hs) as W.
  pose proof (step_inv ev s s' I Hstep) as I'.
  pose proof (step_waiting_inv ev s s' I W Hstep) as W'.
  pose proof (inv_open s I task Ho) as Hh.
  assert (Em : mutex (adapter s') = releaser task (mutex (adapter s))).
  { destruct Hev as [-> | ->]; simpl in Hstep; rewrite Ho in Hstep;
      injection Hstep as <-; reflexivity. }
  assert (Ep : exists p, phase s' = <[task := p]> (phase s)).
  { destruct Hev as [-> | ->]; simpl in Hstep; rewrite Ho in Hstep;
      injection Hstep as <-; eexists; reflexivity. }
  destruct Ep as [p Ep].
  pose proof (releaser_of_holder _ task (inv_mutex s I) Hh) as Er.
  pose proof (inv_queue_sorted s W) as Hsorted.
  pose proof (inv_queue_acquiring s W) as Hacq.
  pose proof (inv_queued _ (inv_mutex s I)) as Hnotres.
  pose proof (inv_called _ (inv_mutex s I)) as Hcalled.
  destruct (sem_queue (mutex (adapter s))) as [|next others] eqn:Eq.
  - rewrite Em, Er. simpl. split; [reflexivity|]. split; [reflexivity|].
    intros t Ht. rewrite <- Er, <- Em in Ht.
    pose proof (inv_free _ (inv_mutex s' I')) as Hfree.
    rewrite Em, Er in Hfree. simpl in Hfree.
    apply (Hfree eq_refl t). rewrite <- Er, <- Em. exact Ht.
  - assert (Hn : phase s !! next = Some Acquiring) by (apply Hacq; left).
    assert (Hne : task <> next) by congruence.
    assert (Hnr : next ∉ sem_resolved (mutex (adapter s))) by (apply Hnotres; left).
    assert (Hholds : holds (mutex (adapter s')) next).
    { rewrite Em, Er. split; simpl.
      - apply elem_of_union. left. apply elem_of_singleton. reflexivity.
      - intros Hc. apply elem_of_union in Hc as [Hc | Hc].
        + apply elem_of_singleton in Hc. congruence.
        + apply Hnr. apply Hcalled. exact Hc. }
    assert (Hp' : phase s' !! next = Some Acquiring).
    { rewrite Ep. rewrite lookup_insert_ne by exact Hne. exact Hn. }
    split; [exact Hholds|]. split; [rewrite Em, Er; reflexivity|].
    split; [exact Hp'|]. split.
    + apply resume_of_resolved; [exact Hp' | apply Hholds].
    + apply StronglySorted_inv in Hsorted as [_ Hall].
      intros t Ht. rewrite Forall_forall in Hall. apply Hall. exact Ht.
Qed.

Lemma startTransaction_passing (lvl : option IsolationLevel) a :
  lvl = None \/ lvl = Some SERIALIZABLE ->
  startTransaction (levelName <$> lvl) a
  = if bool_decide (sem_tasks (mutex a) ∈ sem_resolved (fst (acquire (mutex a))))
    then match startTransaction_resume (sem_tasks (mutex a))
                 (onMutex (fun _ => fst (acquire (mutex a))) a) with
         | (a', inl e) => (a', inl e)
         | (a', inr tx) => (a', inr (Opened tx))
         end
    else (onMutex (fun _ => fst (acquire (mutex a))) a,
          inr (Waiting (sem_tasks (mutex a)))).
Proof.
  intros Hlvl. unfold startTransaction, bind, ret.
  rewrite (startTransaction_enter_passes lvl a Hlvl). rewrite acquire_task.
  change (mutex (onMutex (fun _ => fst (acquire (mutex a))) a))
    with (fst (acquire (mutex a))).
  destruct (bool_decide _); [|reflexivity].
  destruct (startTransaction_resume _ _) as [a' [e|tx]]; reflexivity.
Qed.

(** X8.  While the lock is held, [startTransaction] sends nothing to the
    engine: with no level or with SERIALIZABLE the call is put at the end
    of the queue and is left waiting, the client being as it was. *)
Theorem startTransaction_waits_while_the_lock_is_held :
  forall (d : DB) opts (evs : list (Event Arg ArgType)) s
         (lvl : option IsolationLevel),
    steps evs (newSystem d opts) = Some s ->
    isLocked (mutex (adapter s)) = true ->
    lvl = None \/ lvl = Some SERIALIZABLE ->
    snd (startTransaction (levelName <$> lvl) (adapter s))
      = inr (Waiting (sem_tasks (mutex (adapter s))))
    /\ client (fst (startTransaction (levelName <$> lvl) (adapter s))) = client (adapter s)
    /\ sem_queue (mutex (fst (startTransaction (levelName <$> lvl) (adapter s))))
       = sem_queue (mutex (adapter s)) ++ [sem_tasks (mutex (adapter s))]
    /\ isLocked (mutex (fst (startTransaction (levelName <$> lvl) (adapter s)))) = true.
Proof.
  intros d opts evs s lvl Hs Hlocked Hlvl.
  pose proof (reachable_inv d opts evs s Hs) as I.
  pose proof (inv_mutex s I) as IM.
  unfold isLocked in Hlocked. apply Z.leb_le in Hlocked.
  pose proof (acquire_busy (mutex (adapter s)) (or_intror Hlocked)) as Ea.
  assert (Hnot : sem_tasks (mutex (adapter s))
                 ∉ sem_resolved (fst (acquire (mutex (adapter s))))).
  { rewrite Ea. simpl. intros Hin.
    pose proof (inv_numbered _ IM _ (or_introl Hin)). lia. }
  rewrite (startTransaction_passing lvl (adapter s) Hlvl).
  rewrite bool_decide_eq_false_2 by exact Hnot.
  unfold onMutex. simpl. rewrite Ea. simpl.
  split; [reflexivity|]. split; [reflexivity|]. split; [reflexivity|].
  unfold isLocked. simpl. apply Z.leb_le. exact Hlocked.
Qed.


Lemma resume_enabled s s' (t : nat) :
  step (Arg := Arg) (ArgType := ArgType) (Resume t) s = Some s' ->
  phase s !! t = Some Acquiring
  /\ t ∈ sem_resolved (mutex (adapter s))
  /\ (phase s' !! t = Some Open \/ phase s' !! t = Some Failed).
Proof.
  intros Hstep. simpl in Hstep.
  destruct (phase s !! t) as [[| | | |]|] eqn:Hp; try discriminate Hstep.
  destruct (bool_decide (t ∈ sem_resolved (mutex (adapter s)))) eqn:Hr;
    [|discriminate Hstep].
  apply bool_decide_eq_true in Hr. split; [reflexivity|]. split; [exact Hr|].
  destruct (startTransaction_resume t (adapter s)) as [a' [e|tx]];
    injection Hstep as <-; simpl; rewrite lookup_insert_eq; auto.
Qed.

Lemma step_keeps_phase ev s s' (t : nat) (p : Phase) :
  SystemInv s -> step ev s = Some s' ->
  phase s !! t = Some p -> p = Open \/ p = Failed ->
  ev <> Commit t -> ev <> Rollback t ->
  phase s' !! t = Some p.
Proof.
  intros I Hstep Hp Hcase Hc Hr.
  destruct ev as [lvl | task | task | task | query | query | script]; simpl in Hstep.
  - destruct (startTransaction_enter_cases lvl (adapter s)) as [[e E] | E];
      rewrite E in Hstep; injection Hstep as <-; simpl; [exact Hp|].
    rewrite lookup_insert_ne; [exact Hp|]. rewrite acquire_task.
    assert (Hlt : (t < sem_tasks (mutex (adapter s)))%nat).
    { apply (inv_known s I). rewrite Hp. eexists; reflexivity. }
    lia.
  - destruct (phase s !! task) as [[| | | |]|] eqn:Hq; try discriminate Hstep.
    destruct (bool_decide _); [|discriminate Hstep].
    assert (Hne : task <> t) by (intros ->; destruct Hcase; congruence).
    destruct (startTransaction_resume task (adapter s)) as [a' [e|tx]];
      injection Hstep as <-; simpl; rewrite lookup_insert_ne by exact Hne; exact Hp.
  - assert (Hne : task <> t) by congruence.
    destruct (phase s !! task) as [[| | | |]|] eqn:Hq; try discriminate Hstep;
      injection Hstep as <-; simpl; rewrite ?lookup_insert_ne by exact Hne; exact Hp.
  - assert (Hne : task <> t) by congruence.
    destruct (phase s !! task) as [[| | | |]|] eqn:Hq; try discriminate Hstep;
      injection Hstep as <-; simpl; rewrite ?lookup_insert_ne by exact Hne; exact Hp.
  - injection Hstep as <-. exact Hp.
  - injection Hstep as <-. exact Hp.
  - injection Hstep as <-. exact Hp.
Qed.

Lemma steps_keep_phase (evs : list (Event Arg ArgType)) (t : nat) (p : Phase) :
  forall s s',
    SystemInv s -> steps evs s = Some s' ->
    phase s !! t = Some p -> p = Open \/ p = Failed ->
    Exists (fun ev => ev = Commit t \/ ev = Rollback t) evs
    \/ phase s' !! t = Some p.
Proof.
  induction evs as [|ev evs IH]; intros s s' I Hs Hp Hcase; simpl in Hs.
  - injection Hs as <-. right. exact Hp.
  - destruct (step ev s) as [s1|] eqn:E; [|discriminate Hs].
    assert (Hev : (ev = Commit t \/ ev = Rollback t)
                  \/ (ev <> Commit t /\ ev <> Rollback t)).
    { destruct ev as [lvl | task | task | task | query | query | script];
        try (right; split; discriminate);
        (destruct (decide (task = t)) as [-> | Hne];
         [left; auto | right; split; congruence]). }
    destruct Hev as [Hev | [Hc Hr]]; [left; apply Exists_cons_hd; exact Hev|].
    pose proof (step_keeps_phase ev s s1 t p I E Hp Hcase Hc Hr) as Hp1.
    destruct (IH s1 s' (step_inv ev s s1 I E) Hs Hp1 Hcase) as [Hex | Hk].
    + left. apply Exists_cons_tl. exact Hex.
    + right. exact Hk.
Qed.

(** X10.  Between the BEGIN of one [startTransaction] and the BEGIN of the
    next there is a [commit] or a [rollback] of the first transaction: when
    the call of [t1] has run its BEGIN and later the call of [t2] runs
    its own, the first BEGIN had succeeded and [commit] or [rollback] was
    called on its transaction in between. *)
Theorem begin_only_after_the_previous_transaction_ended :
  forall (d : DB) opts (evs0 evs : list (Event Arg ArgType)) s0 s1 s2 s3 (t1 t2 : nat),
    steps evs0 (newSystem d opts) = Some s0 ->
    step (Resume t1) s0 = Some s1 ->
    steps evs s1 = Some s2 ->
    step (Resume t2) s2 = Some s3 ->
    phase s1 !! t1 = Some Open
    /\ Exists (fun ev => ev = Commit t1 \/ ev = Rollback t1) evs.
Proof.
  intros d opts evs0 evs s0 s1 s2 s3 t1 t2 H0 Hr1 Hs Hr2.
  pose proof (reachable_inv d opts evs0 s0 H0) as I0.
  pose proof (step_inv _ s0 s1 I0 Hr1) as I1.
  pose proof (steps_inv evs s1 s2 I1 Hs) as I2.
  destruct (resume_enabled s0 s1 t1 Hr1) as (_ & _ & Hp1).
  destruct (resume_enabled s2 s3 t2 Hr2) as (Ha2 & Hres2 & _).
  assert (Hh2 : holds (mutex (adapter s2)) t2)
    by (split; [exact Hres2 | apply (inv_acquiring s2 I2); exact Ha2]).
  assert (Contra : forall p, p = Open \/ p = Failed -> phase s2 !! t1 = Some p -> False).
  { intros p Hcase Hp.
    assert (Hh1 : holds (mutex (adapter s2)) t1).
    { destruct Hcase as [-> | ->]; [apply (inv_open s2 I2) | apply (inv_failed s2 I2)];
        exact Hp. }
    pose proof (inv_single _ (inv_mutex s2 I2) t1 t2 Hh1 Hh2) as E. subst t2.
    destruct Hcase as [-> | ->]; congruence. }
  destruct Hp1 as [Hp1 | Hp1].
  - split; [exact Hp1|].
    destruct (steps_keep_phase evs t1 Open s1 s2 I1 Hs Hp1 (or_introl eq_refl))
      as [Hex | Hk]; [exact Hex|].
    destruct (Contra Open (or_introl eq_refl) Hk).
  - destruct (Contra Failed (or_intror eq_refl)
                (steps_failed_stays evs s1 s2 t1 I1 Hs Hp1)).
Qed.

End LockProperties.

(** ** The factory *)

Section FactoryProperties.
Context {DB Stmt Config : Type} `{!DatabaseSyncConstructor DB Config}.

Lemma afterPrefix_append (p s : string) : afterPrefix p (p ++ s)%string = Some s.
Proof.
  induction p as [|a p IH]; simpl; [reflexivity|].
  rewrite Ascii.eqb_refl. exact IH.
Qed.

Lemma afterPrefix_Some (p s r : string) :
  afterPrefix p s = Some r -> s = (p ++ r)%string.
Proof.
  revert s. induction p as [|a p IH]; intros s Hs; simpl in *.
  - injection Hs as ->. reflexivity.
  - destruct s as [|b s]; [discriminate Hs|].
    destruct (Ascii.eqb a b) eqn:E; [|discriminate Hs].
    apply Ascii.eqb_eq in E. subst b.
    change (String a s = String a (String.append p r)). f_equal. apply IH. exact Hs.
Qed.

Lemma replaceFilePrefix_prefixed (path : string) :
  replaceFilePrefix ("file:" ++ path)%string = path.
Proof. unfold replaceFilePrefix. rewrite afterPrefix_append. reflexivity. Qed.

Lemma replaceFilePrefix_plain (url : string) :
  (forall path, url <> ("file:" ++ path)%string) -> replaceFilePrefix url = url.
Proof.
  intros Hno. unfold replaceFilePrefix.
  destruct (afterPrefix "file:" url) as [path|] eqn:E; [|reflexivity].
  destruct (Hno path). apply afterPrefix_Some. exact E.
Qed.

(** X11.  [connect] opens the database at the url of the configuration
    with one leading "file:" taken off, and at the url itself when it does
    not start with "file:", with the other options of the configuration
    as they are.  What [DatabaseSync] throws is thrown on as it is; when it
    opens, the adapter starts with its own unlocked mutex, nothing yet
    sent to the engine, and the options of the factory. *)
Theorem connect_opens_the_url_without_its_file_prefix :
  forall (factory : PrismaNodeSQLiteAdapterFactory Config) (path : string),
    input_url (factory_config factory) = ("file:" ++ path)%string
    \/ (input_url (factory_config factory) = path
        /\ forall rest, path <> ("file:" ++ rest)%string) ->
    connect (Stmt := Stmt) factory
    = match db_open path (input_config (factory_config factory)) with
      | inl e => inl e
      | inr d => inr {| client := {| conn := d; issued := [] |};
                        mutex := newMutex;
                        adapterOptions := factory_options factory |}
      end.
Proof.
  intros factory path Hurl. unfold connect, createNodeSQLiteClient.
  assert (E : replaceFilePrefix (input_url (factory_config factory)) = path).
  { destruct Hurl as [-> | [-> Hno]];
      [apply replaceFilePrefix_prefixed | apply replaceFilePrefix_plain; exact Hno]. }
  rewrite E. destruct (db_open path _); reflexivity.
Qed.

(** X12.  [connectToShadowDb] never looks at the url of the configuration:
    it opens the shadow url of the options, with one leading "file:" taken
    off, and ":memory:" when the options, or the shadow url in them, are
    not given; an empty shadow url is a url and is opened as it is.  The
    other options of the configuration and the options of the factory are
    those of [connect]. *)
Theorem connectToShadowDb_opens_the_shadow_url :
  forall (config : Config) (adapterOptions : option PrismaNodeSQLiteOptions)
         (url : string),
    let factory := {| factory_config := {| input_url := url; input_config := config |};
                      factory_options := adapterOptions |} in
    (forall url' : string,
        connectToShadowDb (Stmt := Stmt)
          {| factory_config := {| input_url := url'; input_config := config |};
             factory_options := adapterOptions |}
        = connectToShadowDb (Stmt := Stmt) factory)
    /\ (adapterOptions = None
        \/ (exists o, adapterOptions = Some o /\ shadowDatabaseUrl o = None) ->
        connectToShadowDb (Stmt := Stmt) factory
        = match db_open ":memory:" config with
          | inl e => inl e
          | inr d => inr (newAdapter d adapterOptions)
          end)
    /\ (forall o shadow path,
          adapterOptions = Some o -> shadowDatabaseUrl o = Some shadow ->
          shadow = ("file:" ++ path)%string
          \/ (shadow = path /\ forall rest, path <> ("file:" ++ rest)%string) ->
          connectToShadowDb (Stmt := Stmt) factory
          = match db_open path config with
            | inl e => inl e
            | inr d => inr (newAdapter d adapterOptions)
            end)
    /\ (forall o,
          adapterOptions = Some o -> shadowDatabaseUrl o = Some ""%string ->
          connectToShadowDb (Stmt := Stmt) factory
          = match db_open "" config with
            | inl e => inl e
            | inr d => inr (newAdapter d adapterOptions)
            end).
Proof.
  intros config adapterOptions url factory.
  assert (Shadow : forall o shadow path,
            adapterOptions = Some o -> shadowDatabaseUrl o = Some shadow ->
            shadow = ("file:" ++ path)%string
            \/ (shadow = path /\ forall rest, path <> ("file:" ++ rest)%string) ->
            connectToShadowDb (Stmt := Stmt) factory
            = match db_open path config with
              | inl e => inl e
              | inr d => inr (newAdapter d adapterOptions)
              end).
  { intros o shadow path Ho Hs Hurl.
    unfold connectToShadowDb, createNodeSQLiteClient, factory, shadowUrl. simpl.
    rewrite Ho, Hs.
    assert (E : replaceFilePrefix shadow = path).
    { destruct Hurl as [-> | [-> Hno]];
        [apply replaceFilePrefix_prefixed | apply replaceFilePrefix_plain; exact Hno]. }
    rewrite E. destruct (db_open path config); reflexivity. }
  split; [|split; [|split]].
  - intros url'. reflexivity.
  - intros Hnone.
    assert (E : shadowUrl adapterOptions = ":memory:").
    { destruct Hnone as [-> | (o & -> & Ho)]; unfold shadowUrl; [reflexivity|].
      rewrite Ho. reflexivity. }
    unfold connectToShadowDb, createNodeSQLiteClient, factory. simpl. rewrite E.
    change (replaceFilePrefix ":memory:") with ":memory:".
    destruct (db_open ":memory:" config); reflexivity.
  - exact Shadow.
  - intros o Ho Hs. apply (Shadow o ""%string ""%string Ho Hs).
    right. split; [reflexivity|]. intros rest E. discriminate E.
Qed.

End FactoryProperties.

(** ** A transaction that has ended *)

Section EndedTransactions.
Context {DB Stmt Arg ArgType Cell : Type}.
Context `{!DatabaseSync DB Stmt, !Conversion Arg ArgType Cell, !Errors}.

Implicit Types (a : Adapter DB Stmt) (s : System DB Stmt) (ev : Event Arg ArgType).

Lemma ended_step_changes_nothing s (task : nat) ev :
  SystemInv s ->
  phase s !! task = Some Committed \/ phase s !! task = Some RolledBack ->
  ev = Commit task \/ ev = Rollback task ->
  step ev s = Some s.
Proof.
  intros I Hp Hev.
  assert (Em : releaser task (mutex (adapter s)) = mutex (adapter s)).
  { apply releaser_called_again. apply (inv_ended s I). exact Hp. }
  destruct s as [[cl m o] ph]. simpl in *.
  destruct Hev as [-> | ->]; simpl; unfold onMutex; simpl; rewrite Em;
    destruct Hp as [-> | ->]; reflexivity.
Qed.

(** X13.  A transaction gives the lock back once.  The first [commit] or
    [rollback] on an open transaction calls the releaser, after which the
    transaction no longer holds the lock; any calls of [commit] and
    [rollback] that follow on the same transaction, in any number and
    order, succeed and leave the adapter, the mutex included, and every
    transaction as they were. *)
Theorem a_transaction_gives_the_lock_back_once :
  forall (d : DB) opts (evs : list (Event Arg ArgType)) s s' (task : nat) ev
         (more : list (Event Arg ArgType)),
    steps evs (newSystem d opts) = Some s ->
    phase s !! task = Some Open ->
    ev = Commit task \/ ev = Rollback task ->
    step ev s = Some s' ->
    Forall (fun ev' => ev' = Commit task \/ ev' = Rollback task) more ->
    holds (mutex (adapter s)) task
    /\ mutex (adapter s') = releaser task (mutex (adapter s))
    /\ ~ holds (mutex (adapter s')) task
    /\ steps more s' = Some s'.
Proof.
  intros d opts evs s s' task ev more Hs Ho Hev Hstep Hmore.
  pose proof (reachable_inv d opts evs s Hs) as I.
  pose proof (step_inv ev s s' I Hstep) as I'.
  pose proof (inv_open s I task Ho) as Hh.
  assert (Em : mutex (adapter s') = releaser task (mutex (adapter s))).
  { destruct Hev as [-> | ->]; simpl in Hstep; rewrite Ho in Hstep;
      injection Hstep as <-; reflexivity. }
  assert (Hp' : phase s' !! task = Some Committed \/ phase s' !! task = Some RolledBack).
  { destruct Hev as [-> | ->]; simpl in Hstep; rewrite Ho in Hstep;
      injection Hstep as <-; simpl; rewrite lookup_insert_eq; auto. }
  split; [exact Hh|]. split; [exact Em|]. split.
  - intros [_ Hn]. apply Hn. apply (inv_ended s' I'). exact Hp'.
  - induction Hmore as [|ev' more Hev' Hmore IH]; [reflexivity|].
    simpl. rewrite (ended_step_changes_nothing s' task ev' I' Hp' Hev'). exact IH.
Qed.

End EndedTransactions.

(** ** More of the adapter on the small engine *)


Lemma executeRaw_binds_witness :
  exists (stmt : Mini.Stmt) (bound : list JsValue),
    [CallPrepare "DELETE FROM t"; CallRun stmt bound]
    = [] ++ [CallPrepare "DELETE FROM t"; CallRun stmt bound]
    /\ length bound = 2%nat
    /\ forall (k : nat) (arg : Mini.Value),
         [Converter.VInt 7; Converter.VBoolean true] !! k = Some arg ->
         exists v, bound !! k = Some v
                   /\ mapArg arg ([CtInt32; CtBoolean] !! k) None = inr v.
Proof.
  assert (E : executeRaw None
                {| sql := "DELETE FROM t";
                   args := [Converter.VInt 7; Converter.VBoolean true];
                   argTypes := [CtInt32; CtBoolean] |}
                (Mini.table 5)
              = ({| conn := {| Mini.inTransaction := false; Mini.rowsOfT := 0 |};
                    issued := [CallPrepare "DELETE FROM t";
                               CallRun {| Mini.sourceSQL := "DELETE FROM t";
                                          Mini.readBigInts := false;
                                          Mini.returnArrays := false |}
                                       [JNumber 7; JNumber 1]] |}, inr 5))
    by (vm_compute; reflexivity).
  destruct (executeRaw_binds_the_converted_arguments _ _ _ _ _ E)
    as (stmt & bound & Hi & Hl & Hp).
  exists stmt, bound. split; [reflexivity|]. split; [exact Hl | exact Hp].
Defined.

Lemma queryRaw_result_witness :
  exists (d : Mini.DB) (stmt : Mini.Stmt) (bound : list JsValue),
    Mini.prepare "SELECT count(*) FROM t" {| Mini.inTransaction := false; Mini.rowsOfT := 5 |}
      = (d, inr stmt)
    /\ bound = []
    /\ ["count(*)"] = map col_name (Mini.columns (arranged stmt)).
Proof.
  assert (E : queryRaw None (Mini.query "SELECT count(*) FROM t") (Mini.table 5)
              = ({| conn := {| Mini.inTransaction := false; Mini.rowsOfT := 5 |};
                    issued := [CallPrepare "SELECT count(*) FROM t";
                               CallAll {| Mini.sourceSQL := "SELECT count(*) FROM t";
                                          Mini.readBigInts := true;
                                          Mini.returnArrays := true |} []] |},
                 inr {| rs_columnNames := ["count(*)"];
                        rs_columnTypes := [CtInt64];
                        rs_rows := [[Converter.VBigInt 5]] |}))
    by (vm_compute; reflexivity).
  destruct (queryRaw_result_follows_the_statement _ _ _ _ _ E)
    as (d & stmt & bound & Hp & Hm & Hn & _).
  exists d, stmt, bound. split; [exact Hp|]. split; [|exact Hn].
  injection Hm as <-. reflexivity.
Defined.

Lemma waiting_callers_witness :
  isLocked (mutex (adapter (Mini.after Mini.threeCallers Mini.start))) = true
  /\ sem_queue (mutex (adapter (Mini.after Mini.threeCallers Mini.start))) = [1%nat; 2%nat].
Proof.
  split; [|vm_compute; reflexivity].
  refine (proj1 (a_call_waits_only_while_the_lock_is_held Mini.empty None
                   Mini.threeCallers (Mini.after Mini.threeCallers Mini.start) _ _)).
  - vm_compute. reflexivity.
  - vm_compute. discriminate.
Defined.

Lemma first_waiting_caller_witness :
  match sem_queue (mutex (adapter (Mini.after Mini.threeCallers Mini.start))) with
  | [] => True
  | next :: others => next = 1%nat /\ others = [2%nat]
  end
  /\ match sem_queue (mutex (adapter (Mini.after Mini.threeCallers Mini.start))) with
     | [] =>
         isLocked (mutex (adapter (Mini.after [Commit 0%nat]
                                     (Mini.after Mini.threeCallers Mini.start)))) = false
         /\ sem_queue (mutex (adapter (Mini.after [Commit 0%nat]
                                         (Mini.after Mini.threeCallers Mini.start)))) = []
         /\ forall t : nat,
              ~ holds (mutex (adapter (Mini.after [Commit 0%nat]
                                         (Mini.after Mini.threeCallers Mini.start)))) t
     | next :: others =>
         holds (mutex (adapter (Mini.after [Commit 0%nat]
                                  (Mini.after Mini.threeCallers Mini.start)))) next
         /\ sem_queue (mutex (adapter (Mini.after [Commit 0%nat]
                                         (Mini.after Mini.threeCallers Mini.start)))) = others
         /\ phase (Mini.after [Commit 0%nat] (Mini.after Mini.threeCallers Mini.start))
              !! next = Some Acquiring
         /\ is_Some (step (Arg := Mini.Value) (ArgType := ColumnType) (Resume next)
                       (Mini.after [Commit 0%nat]
                          (Mini.after Mini.threeCallers Mini.start)))
         /\ forall t : nat, t ∈ others -> (next < t)%nat
     end.
Proof.
  split; [vm_compute; split; reflexivity|].
  apply (the_lock_goes_to_the_first_waiting_caller Mini.empty None Mini.threeCallers
           (Mini.after Mini.threeCallers Mini.start)
           (Mini.after [Commit 0%nat] (Mini.after Mini.threeCallers Mini.start))
           0%nat (Commit 0%nat)).
  - vm_compute. reflexivity.
  - vm_compute. reflexivity.
  - left. reflexivity.
  - vm_compute. reflexivity.
Defined.

Lemma startTransaction_waits_witness :
  snd (startTransaction None (adapter (Mini.after Mini.threeCallers Mini.start)))
  = inr (Waiting 3).
Proof.
  refine (proj1 (startTransaction_waits_while_the_lock_is_held Mini.empty None
                   Mini.threeCallers (Mini.after Mini.threeCallers Mini.start)
                   None _ _ _)).
  - vm_compute. reflexivity.
  - vm_compute. reflexivity.
  - left. reflexivity.
Defined.


Lemma begin_after_commit_witness :
  phase (Mini.after [Resume 0%nat] (Mini.after [Start None; Start None] Mini.start))
    !! 0%nat = Some Open
  /\ Exists (fun ev : Event Mini.Value ColumnType => ev = Commit 0%nat \/ ev = Rollback 0%nat)
       [ExecuteRaw (Mini.query "COMMIT"); Commit 0%nat].
Proof.
  apply (begin_only_after_the_previous_transaction_ended Mini.empty None
           [Start None; Start None] [ExecuteRaw (Mini.query "COMMIT"); Commit 0%nat]
           (Mini.after [Start None; Start None] Mini.start)
           (Mini.after [Resume 0%nat] (Mini.after [Start None; Start None] Mini.start))
           (Mini.after [ExecuteRaw (Mini.query "COMMIT"); Commit 0%nat]
              (Mini.after [Resume 0%nat] (Mini.after [Start None; Start None] Mini.start)))
           (Mini.after [Resume 1%nat]
              (Mini.after [ExecuteRaw (Mini.query "COMMIT"); Commit 0%nat]
                 (Mini.after [Resume 0%nat]
                    (Mini.after [Start None; Start None] Mini.start))))
           0%nat 1%nat).
  - vm_compute. reflexivity.
  - vm_compute. reflexivity.
  - vm_compute. reflexivity.
  - vm_compute. reflexivity.
Defined.

Lemma connect_witness :
  connect (Stmt := Mini.Stmt)
    {| factory_config := {| input_url := "file:./prisma/dev.db"; input_config := tt |};
       factory_options := None |}
  = inr (newAdapter Mini.empty None).
Proof.
  refine (eq_trans
            (connect_opens_the_url_without_its_file_prefix
               {| factory_config :=
                    {| input_url := "file:./prisma/dev.db"; input_config := tt |};
                  factory_options := None |}
               "./prisma/dev.db" _) _).
  - left. reflexivity.
  - reflexivity.
Defined.

Lemma lock_given_back_once_witness :
  steps [Rollback 0%nat; Commit 0%nat; Commit 0%nat]
    (Mini.after [Commit 0%nat] (Mini.after Mini.oneByOne_before Mini.start))
  = Some (Mini.after [Commit 0%nat] (Mini.after Mini.oneByOne_before Mini.start)).
Proof.
  refine (proj2 (proj2 (proj2 (a_transaction_gives_the_lock_back_once Mini.empty None
            Mini.oneByOne_before
            (Mini.after Mini.oneByOne_before Mini.start)
            (Mini.after [Commit 0%nat] (Mini.after Mini.oneByOne_before Mini.start))
            0%nat (Commit 0%nat) [Rollback 0%nat; Commit 0%nat; Commit 0%nat]
            _ _ _ _ _)))).
  - vm_compute. reflexivity.
  - vm_compute. reflexivity.
  - left. reflexivity.
  - vm_compute. reflexivity.
  - constructor; [right; reflexivity|].
    constructor; [left; reflexivity|].
    constructor; [left; reflexivity|].
    constructor.
Defined.
